(** * The unified callback entry point of callback.hpp

    A shallow embedding of [Callback], of its six wrapper class templates
    and of the six [MakeCallback] overloads, followed by the properties of
    the deferred-call abstraction.

    The header is template code, so two things happen at two times: the
    compiler selects and instantiates templates (modelled by functions into
    [compiled], which either produce the instantiated entity or a
    diagnostic), and the instantiated code runs (modelled by functions on a
    [store], into [outcome]). *)

From stdpp Require Import gmap strings list fin_maps.

(** ** Types and values of call arguments *)

(** The object types a template parameter pack [Args...] ranges over here.
    Every [MakeCallback] overload takes [Args... args] by value, so what
    is deduced for [Args] from the trailing arguments is never a
    reference type, and a callable with a reference parameter is not
    accepted. *)
Inductive ty := TInt | TBool | TString.

(** The return type [Ret]. *)
Inductive rty := RVoid | RValue (T : ty).

Definition sem (T : ty) : Type :=
  match T with
  | TInt => Z
  | TBool => bool
  | TString => string
  end.

Definition sem_r (R : rty) : Type :=
  match R with
  | RVoid => unit
  | RValue T => sem T
  end.

(** [std::tuple<Args...>] *)
Fixpoint tuple (Args : list ty) : Type :=
  match Args with
  | [] => unit
  | A :: As => (sem A * tuple As)%type
  end.

(** An argument expression at a call site, after evaluation: a value
    together with its static type. *)
Inductive value := V_int (z : Z) | V_bool (b : bool) | V_string (s : string).

Definition type_of (v : value) : ty :=
  match v with
  | V_int _ => TInt
  | V_bool _ => TBool
  | V_string _ => TString
  end.

Definition value_of {T : ty} : sem T -> value :=
  match T with
  | TInt => V_int
  | TBool => V_bool
  | TString => V_string
  end.

(** A value is accepted for a parameter of type [T] only at exactly that
    type: where [Args] is deduced both from the callable's type and from
    the trailing arguments, the two deductions have to agree. *)
Definition as_type (T : ty) (v : value) : option (sem T) :=
  match T, v with
  | TInt, V_int z => Some z
  | TBool, V_bool b => Some b
  | TString, V_string s => Some s
  | _, _ => None
  end.

Fixpoint values_of {Args : list ty} : tuple Args -> list value :=
  match Args with
  | [] => fun _ => []
  | A :: As => fun t => value_of (fst t) :: values_of (snd t)
  end.

(** Template argument deduction for the pack: [Args] is fixed by the
    callable's parameter list, and the trailing arguments must have
    exactly these types, in number and in order. *)
Fixpoint deduce (Args : list ty) (vs : list value) : option (tuple Args) :=
  match Args with
  | [] => match vs with
          | [] => Some tt
          | _ :: _ => None
          end
  | A :: As => match vs with
               | [] => None
               | v :: vs' =>
                   match as_type A v, deduce As vs' with
                   | Some a, Some t => Some (a, t)
                   | _, _ => None
                   end
               end
  end.

(** Conversion of one argument of a call wrapper to a parameter of the
    wrapped callable. *)
Definition convert (A P : ty) : option (sem A -> sem P) :=
  match A, P with
  | TInt, TInt => Some (fun z => z)
  | TBool, TBool => Some (fun b => b)
  | TString, TString => Some (fun s => s)
  | _, _ => None
  end.

(** ** Compile time and run time *)

Inductive diagnostic :=
| No_matching_overload
| Ambiguous_overload
| No_matching_constructor
| Placeholder_without_argument
| Wrong_number_of_arguments
| Argument_type_mismatch
| Receiver_not_dereferenceable
| Member_pointer_called_without_object.

(** The result of instantiating a template: the entity, or the reason
    the program is rejected. *)
Inductive compiled (A : Type) :=
| Well_formed (a : A)
| Ill_formed (d : diagnostic).
Arguments Well_formed {A} a.
Arguments Ill_formed {A} d.

(** The result of running code: a new state, or undefined behaviour. *)
Inductive outcome (A : Type) :=
| Done (a : A)
| Undefined.
Arguments Done {A} a.
Arguments Undefined {A}.

Definition is_well_formed {A} (c : compiled A) : bool :=
  match c with
  | Well_formed _ => true
  | Ill_formed _ => false
  end.

(** ** Shared ownership *)

Abbreviation loc := nat (only parsing).
Abbreviation handle := nat (only parsing).

(** Every [std::shared_ptr] instance that shares ownership of an object is
    one owner of it: an instance held by client code, or the member
    [m_obj] of the wrapper behind a handle. *)
Inductive owner := Owner_external (n : nat) | Owner_wrapper (h : handle).

#[global] Instance owner_eq_dec : EqDecision owner.
Proof. solve_decision. Defined.

#[global] Instance owner_countable : Countable owner.
Proof.
  refine (inj_countable'
            (fun o => match o with
                      | Owner_external n => inl n
                      | Owner_wrapper h => inr h
                      end)
            (fun s => match s with
                      | inl n => Owner_external n
                      | inr h => Owner_wrapper h
                      end) _).
  by intros [].
Defined.

(** [std::shared_ptr<Class>]: [get] is the stored pointer, [None] for an
    empty pointer. *)
Record shared_ptr := { get : option loc }.

(** cv-qualification of a member function type. *)
Inductive cv := Non_const | Const.

(** What [std::bind] has bound in the receiver position. *)
Inductive bound_receiver :=
| Raw_pointer (p : option loc)
| Nullptr_literal.

Section Model.
Context {World Class : Type}.

(** An object of type [Class] on the heap with its control block. The
    object lives exactly as long as it has an owner. *)
Record cell := { object : Class; owners : gset owner }.

Definition use_count (c : cell) : nat := size (owners c).

Record store := { globals : World; heap : gmap loc cell }.

(** A pointer to a function of type [Ret(Args...)], and the
    [std::function<Ret(Args...)>] made from it: parameters are passed by
    value, the effect is on the global state. *)
Definition Function (Ret : rty) (Args : list ty) : Type :=
  tuple Args -> World -> sem_r Ret * World.

(** A pointer to a member function of [Class] of type [Ret(Args...)]
    for [q = Non_const], of type [Ret(Args...) const] for [q = Const]. *)
Record member_pointer (q : cv) (Ret : rty) (Args : list ty) := {
  member_body : tuple Args -> Class -> World -> sem_r Ret * Class * World
}.
Arguments member_body {q Ret Args} _ _ _ _.

(** The direct call [f(a...)]; the returned value is dropped. *)
Definition invoke_function {Ret Args} (f : Function Ret Args)
    (a : tuple Args) (st : store) : outcome store :=
  Done {| globals := snd (f a (globals st)); heap := heap st |}.

(** The direct call of the member [fn] with arguments [a...] on the
    object [p] points to. *)
Definition invoke_member {q Ret Args} (fn : member_pointer q Ret Args)
    (p : option loc) (a : tuple Args) (st : store) : outcome store :=
  match p with
  | None => Undefined
  | Some l =>
      match heap st !! l with
      | None => Undefined
      | Some c =>
          let '(_, o, w) := member_body fn a (object c) (globals st) in
          Done {| globals := w;
                  heap := <[l := {| object := o; owners := owners c |}]> (heap st) |}
      end
  end.

(** [std::apply(f, t)] *)
Definition std_apply {Args : list ty} {R : Type} (f : tuple Args -> R)
    (t : tuple Args) : R := f t.

(** [std::bind(fn, r, std::placeholders::_1)] for a pointer to member
    [fn], called with arguments of types [Args]: the call wrapper passes
    the bound receiver and its first argument to [fn] and drops the
    others, so the call is INVOKE(fn, r, u1): [r] is dereferenced and
    [fn] is called on the result with the one argument [u1]. There has
    to be a first argument, [fn] has to take exactly one parameter, and
    [r] has to be something that can be dereferenced, which a
    [std::nullptr_t] is not. *)
Definition std_bind_1 {q Ret Params} (fn : member_pointer q Ret Params)
    (r : bound_receiver) (Args : list ty)
    : compiled (tuple Args -> store -> outcome store) :=
  match Args with
  | [] => Ill_formed Placeholder_without_argument
  | A :: As =>
      match Params return member_pointer q Ret Params -> _ with
      | [P] => fun fn =>
          match convert A P with
          | None => Ill_formed Argument_type_mismatch
          | Some c =>
              match r with
              | Nullptr_literal => Ill_formed Receiver_not_dereferenceable
              | Raw_pointer p =>
                  Well_formed (fun (t : tuple (A :: As)) =>
                                 invoke_member fn p (c (fst t), tt))
              end
          end
      | _ => fun _ => Ill_formed Wrong_number_of_arguments
      end fn
  end.

(** ** The wrapper classes *)

(** The classes derived from [Callback], one constructor per class
    template, with the template arguments and the data members. The
    template parameter [Class] is the type of the objects of the model.
    [FunctionCallbackN] has a parameter pack it does not use. *)
Inductive Callback :=
| FunctionCallback (Ret : rty) (Args : list ty)
    (m_fn : Function Ret Args) (m_args : tuple Args)
| FunctionCallbackN (Ret : rty) (Args : list ty)
    (m_fn : Function Ret [])
| MemberCallback (Ret : rty) (Args : list ty)
    (m_obj : shared_ptr) (m_fn : member_pointer Non_const Ret Args)
    (m_args : tuple Args)
| MemberCallbackN (Ret : rty)
    (m_obj : shared_ptr) (m_fn : member_pointer Non_const Ret [])
| ConstMemberCallback (Ret : rty) (Args : list ty)
    (m_fn : member_pointer Const Ret Args) (m_args : tuple Args)
| ConstMemberCallbackN (Ret : rty)
    (m_fn : member_pointer Const Ret []).

(** The body of the virtual [call()] of each class, as instantiated:
    - [FunctionCallback]: [std::apply(m_fn, m_args)];
    - [FunctionCallbackN]: [m_fn()];
    - [MemberCallback]:
      [std::apply(std::bind(m_fn, m_obj.get(), std::placeholders::_1), m_args)];
    - [MemberCallbackN]: [m_fn], called with no argument on the object
      [m_obj] points to;
    - [ConstMemberCallback]:
      [std::apply(std::bind(m_fn, nullptr, std::placeholders::_1), m_args)];
    - [ConstMemberCallbackN]: [m_fn()], where [m_fn] is a pointer to
      member; a member is only called through such a pointer on an
      object. *)
Definition call_body (cb : Callback) : compiled (store -> outcome store) :=
  match cb with
  | FunctionCallback _ _ m_fn m_args =>
      Well_formed (std_apply (invoke_function m_fn) m_args)
  | FunctionCallbackN _ _ m_fn =>
      Well_formed (invoke_function m_fn tt)
  | MemberCallback _ Args m_obj m_fn m_args =>
      match std_bind_1 m_fn (Raw_pointer (get m_obj)) Args with
      | Well_formed g => Well_formed (std_apply g m_args)
      | Ill_formed d => Ill_formed d
      end
  | MemberCallbackN _ m_obj m_fn =>
      Well_formed (invoke_member m_fn (get m_obj) tt)
  | ConstMemberCallback _ Args m_fn m_args =>
      match std_bind_1 m_fn Nullptr_literal Args with
      | Well_formed g => Well_formed (std_apply g m_args)
      | Ill_formed d => Ill_formed d
      end
  | ConstMemberCallbackN _ m_fn =>
      Ill_formed Member_pointer_called_without_object
  end.

(** [cb->call()] *)
Definition call (cb : Callback) (st : store) : compiled (outcome store) :=
  match call_body cb with
  | Well_formed run => Well_formed (run st)
  | Ill_formed d => Ill_formed d
  end.

(** ** The factory layer *)

(** A call [MakeCallback(...)] as written by a client: the callable, for
    the second shape preceded by the shared pointer to the receiver, and
    the trailing arguments. [A] is what stands in argument position:
    evaluated values, or expressions still to be evaluated. *)
Inductive call_site (A : Type) :=
| Site_function (Ret : rty) (Params : list ty)
    (fn : Function Ret Params) (args : list A)
| Site_object_member (obj : shared_ptr) (q : cv) (Ret : rty)
    (Params : list ty) (fn : member_pointer q Ret Params) (args : list A)
| Site_member (q : cv) (Ret : rty) (Params : list ty)
    (fn : member_pointer q Ret Params) (args : list A).
Arguments Site_function {A} Ret Params fn args.
Arguments Site_object_member {A} obj q Ret Params fn args.
Arguments Site_member {A} q Ret Params fn args.

(** Constructing an object of a class template specialization
    instantiates the class, its constructor and, through the table of
    virtual functions the constructor installs, its [call()]. *)
Definition instantiate_class (cb : Callback) : compiled Callback :=
  match call_body cb with
  | Well_formed _ => Well_formed cb
  | Ill_formed d => Ill_formed d
  end.

(** Passing a pointer to member function where one of qualification [q']
    is expected: pointers to member functions that differ in the
    cv-qualification of the function type are of different types, and no
    conversion leads from one to the other. *)
Definition convert_member_pointer {q Ret Args} (q' : cv)
    : member_pointer q Ret Args -> option (member_pointer q' Ret Args) :=
  match q, q' with
  | Non_const, Non_const => fun fn => Some fn
  | Const, Const => fun fn => Some fn
  | _, _ => fun _ => None
  end.

(** The six overloads. Each yields [None] where template argument
    deduction fails for the call, and otherwise the instantiation of its
    body with the deduced arguments. *)

(** Ordinary function, with arguments:
    [make_shared<FunctionCallback<Ret, Args...>>(fn, args...)]. *)
Definition MakeCallback_function (s : call_site value)
    : option (compiled Callback) :=
  match s with
  | Site_function Ret Params fn args =>
      match deduce Params args with
      | Some a => Some (instantiate_class (FunctionCallback Ret Params fn a))
      | None => None
      end
  | _ => None
  end.

(** Member function of an object, with arguments; the pointer to member
    is one to a non-const member:
    [make_shared<MemberCallback<Class, Ret, Args...>>(obj, fn, args...)]. *)
Definition MakeCallback_member (s : call_site value)
    : option (compiled Callback) :=
  match s with
  | Site_object_member obj q Ret Params fn args =>
      match q return member_pointer q Ret Params -> _ with
      | Non_const => fun fn =>
          match deduce Params args with
          | Some a =>
              Some (instantiate_class (MemberCallback Ret Params obj fn a))
          | None => None
          end
      | Const => fun _ => None
      end fn
  | _ => None
  end.

(** Member function without an object, with arguments; the pointer to
    member is again one to a non-const member, and the class it is
    handed to stores a pointer to a const member:
    [make_shared<ConstMemberCallback<Class, Ret, Args...>>(fn, args...)]. *)
Definition MakeCallback_const_member (s : call_site value)
    : option (compiled Callback) :=
  match s with
  | Site_member q Ret Params fn args =>
      match q return member_pointer q Ret Params -> _ with
      | Non_const => fun fn =>
          match deduce Params args with
          | Some a =>
              Some match convert_member_pointer Const fn with
                   | Some m =>
                       instantiate_class (ConstMemberCallback Ret Params m a)
                   | None => Ill_formed No_matching_constructor
                   end
          | None => None
          end
      | Const => fun _ => None
      end fn
  | _ => None
  end.

(** Ordinary function, no arguments:
    [make_shared<FunctionCallbackN<Ret>>(fn)]. *)
Definition MakeCallback_functionN (s : call_site value)
    : option (compiled Callback) :=
  match s with
  | Site_function Ret Params fn args =>
      match Params return Function Ret Params -> _ with
      | [] => fun fn =>
          match args with
          | [] => Some (instantiate_class (FunctionCallbackN Ret [] fn))
          | _ :: _ => None
          end
      | _ :: _ => fun _ => None
      end fn
  | _ => None
  end.

(** Member function of an object, no arguments:
    [make_shared<MemberCallbackN<Class, Ret>>(obj, fn)]. *)
Definition MakeCallback_memberN (s : call_site value)
    : option (compiled Callback) :=
  match s with
  | Site_object_member obj q Ret Params fn args =>
      match q, Params return member_pointer q Ret Params -> _ with
      | Non_const, [] => fun fn =>
          match args with
          | [] => Some (instantiate_class (MemberCallbackN Ret obj fn))
          | _ :: _ => None
          end
      | _, _ => fun _ => None
      end fn
  | _ => None
  end.

(** Member function without an object, no arguments:
    [make_shared<ConstMemberCallbackN<Class, Ret>>(fn)]. *)
Definition MakeCallback_const_memberN (s : call_site value)
    : option (compiled Callback) :=
  match s with
  | Site_member q Ret Params fn args =>
      match q, Params return member_pointer q Ret Params -> _ with
      | Non_const, [] => fun fn =>
          match args with
          | [] =>
              Some match convert_member_pointer Const fn with
                   | Some m => instantiate_class (ConstMemberCallbackN Ret m)
                   | None => Ill_formed No_matching_constructor
                   end
          | _ :: _ => None
          end
      | _, _ => fun _ => None
      end fn
  | _ => None
  end.

(** The overload set, in the order of declaration. *)
Inductive overload :=
| Make_function
| Make_member
| Make_const_member
| Make_functionN
| Make_memberN
| Make_const_memberN.

Definition overloads : list overload :=
  [Make_function; Make_member; Make_const_member;
   Make_functionN; Make_memberN; Make_const_memberN].

Definition candidate (o : overload) : call_site value -> option (compiled Callback) :=
  match o with
  | Make_function => MakeCallback_function
  | Make_member => MakeCallback_member
  | Make_const_member => MakeCallback_const_member
  | Make_functionN => MakeCallback_functionN
  | Make_memberN => MakeCallback_memberN
  | Make_const_memberN => MakeCallback_const_memberN
  end.

Definition overload_eqb (o1 o2 : overload) : bool :=
  match o1, o2 with
  | Make_function, Make_function
  | Make_member, Make_member
  | Make_const_member, Make_const_member
  | Make_functionN, Make_functionN
  | Make_memberN, Make_memberN
  | Make_const_memberN, Make_const_memberN => true
  | _, _ => false
  end.

(** Partial ordering of the function templates: an overload without the
    pack is more specialized than the one of the same shape with it (its
    parameter types can be deduced from the other's, not the other way
    round). Templates of different shapes are not ordered. *)
Definition more_specialized (o1 o2 : overload) : bool :=
  match o1, o2 with
  | Make_functionN, Make_function
  | Make_memberN, Make_member
  | Make_const_memberN, Make_const_member => true
  | _, _ => false
  end.

Definition viable (o : overload) (s : call_site value) : bool :=
  match candidate o s with
  | Some _ => true
  | None => false
  end.

(** The viable overloads that are at least as good as every other viable
    one. Overload resolution succeeds when there is exactly one. *)
Definition best_viable (s : call_site value) : list overload :=
  let vs := List.filter (fun o => viable o s) overloads in
  List.filter
    (fun o => forallb (fun o' => overload_eqb o o' || more_specialized o o') vs)
    vs.

(** [MakeCallback(...)]: overload resolution, then the selected
    overload's body. *)
Definition MakeCallback (s : call_site value) : compiled Callback :=
  match best_viable s with
  | [] => Ill_formed No_matching_overload
  | [o] =>
      match candidate o s with
      | Some r => r
      | None => Ill_formed No_matching_overload
      end
  | _ :: _ :: _ => Ill_formed Ambiguous_overload
  end.

(** ** Client code around the handles *)

(** An argument expression of a call: a literal or a variable of the
    caller. *)
Inductive expr := Lit (v : value) | Var (x : string).

Definition eval (vs : gmap string value) (e : expr) : option value :=
  match e with
  | Lit v => Some v
  | Var x => vs !! x
  end.

Fixpoint eval_list (vs : gmap string value) (es : list expr) : option (list value) :=
  match es with
  | [] => Some []
  | e :: es' =>
      match eval vs e, eval_list vs es' with
      | Some v, Some r => Some (v :: r)
      | _, _ => None
      end
  end.

Definition site_args {A} (s : call_site A) : list A :=
  match s with
  | Site_function _ _ _ args => args
  | Site_object_member _ _ _ _ _ args => args
  | Site_member _ _ _ _ args => args
  end.

(** The arguments of a call are evaluated when the call is made; the
    parameters [Args... args] receive the values. *)
Definition eval_site (vs : gmap string value) (s : call_site expr)
    : option (call_site value) :=
  match s with
  | Site_function Ret Params fn args =>
      match eval_list vs args with
      | Some a => Some (Site_function Ret Params fn a)
      | None => None
      end
  | Site_object_member obj q Ret Params fn args =>
      match eval_list vs args with
      | Some a => Some (Site_object_member obj q Ret Params fn a)
      | None => None
      end
  | Site_member q Ret Params fn args =>
      match eval_list vs args with
      | Some a => Some (Site_member q Ret Params fn a)
      | None => None
      end
  end.

(** The object a wrapper shares ownership of through [m_obj]. *)
Definition receiver (cb : Callback) : option loc :=
  match cb with
  | MemberCallback _ _ m_obj _ _ => get m_obj
  | MemberCallbackN _ m_obj _ => get m_obj
  | _ => None
  end.

(** The values stored in [m_args]. *)
Definition captured_arguments (cb : Callback) : list value :=
  match cb with
  | FunctionCallback _ _ _ m_args => values_of m_args
  | MemberCallback _ _ _ _ m_args => values_of m_args
  | ConstMemberCallback _ _ _ m_args => values_of m_args
  | _ => []
  end.

(** A new [std::shared_ptr] instance [o] takes a share in the object at
    [l]. *)
Definition acquire (l : loc) (o : owner) (hp : gmap loc cell) : gmap loc cell :=
  match hp !! l with
  | None => hp
  | Some c => <[l := {| object := object c; owners := owners c ∪ {[o]} |}]> hp
  end.

(** The instance [o] gives up its share; the object is destroyed with
    its last owner. *)
Definition release (l : loc) (o : owner) (hp : gmap loc cell) : gmap loc cell :=
  match hp !! l with
  | None => hp
  | Some c =>
      let os := owners c ∖ {[o]} in
      if decide (os = ∅) then delete l hp
      else <[l := {| object := object c; owners := os |}]> hp
  end.

(** The state of a program that uses the header: memory, the wrappers
    behind the live handles, and the caller's variables. *)
Record machine := {
  mem : store;
  wrappers : gmap handle Callback;
  vars : gmap string value
}.

Definition initial (w : World) : machine :=
  {| mem := {| globals := w; heap := ∅ |}; wrappers := ∅; vars := ∅ |}.

(** What a client can do. Client-held shared pointers are numbered. *)
Inductive event :=
| Ev_make_shared (l : loc) (o : Class) (n : nat)
| Ev_copy (l : loc) (n n' : nat)
| Ev_reset (l : loc) (n : nat)
| Ev_assign (x : string) (v : value)
| Ev_make (h : handle) (s : call_site expr)
| Ev_call (h : handle)
| Ev_destroy (h : handle).

Definition alive (p : option loc) (hp : gmap loc cell) : bool :=
  match p with
  | None => true
  | Some l => bool_decide (is_Some (hp !! l))
  end.

(** One step of the client. [None]: the step cannot be taken from this
    state, because the program is rejected, the step refers to something
    that does not exist, or its behaviour is undefined.
    - [Ev_make_shared]: pointer [n] is [std::make_shared<Class>(o)].
    - [Ev_copy]: pointer [n'] becomes a copy of pointer [n].
    - [Ev_reset]: pointer [n] is reset or goes out of scope.
    - [Ev_assign]: the variable [x] is assigned.
    - [Ev_make]: handle [h] is [MakeCallback(...)]. A shared pointer
      passed as the object is itself an owner, so a non-empty one refers
      to a live object. The by-value parameters that carry it are gone
      when the factory returns; the member [m_obj] of the new wrapper
      stays as one more owner.
    - [Ev_call]: [h->call()].
    - [Ev_destroy]: the last copy of handle [h] is released, the wrapper
      and with it its members are destroyed. *)
Definition exec (ev : event) (m : machine) : option machine :=
  match ev with
  | Ev_make_shared l o n =>
      match heap (mem m) !! l with
      | Some _ => None
      | None =>
          Some {| mem := {| globals := globals (mem m);
                            heap := <[l := {| object := o;
                                              owners := {[Owner_external n]} |}]>
                                      (heap (mem m)) |};
                  wrappers := wrappers m;
                  vars := vars m |}
      end
  | Ev_copy l n n' =>
      match heap (mem m) !! l with
      | None => None
      | Some c =>
          if decide (Owner_external n ∈ owners c)
          then Some {| mem := {| globals := globals (mem m);
                                 heap := acquire l (Owner_external n') (heap (mem m)) |};
                       wrappers := wrappers m;
                       vars := vars m |}
          else None
      end
  | Ev_reset l n =>
      match heap (mem m) !! l with
      | None => None
      | Some c =>
          if decide (Owner_external n ∈ owners c)
          then Some {| mem := {| globals := globals (mem m);
                                 heap := release l (Owner_external n) (heap (mem m)) |};
                       wrappers := wrappers m;
                       vars := vars m |}
          else None
      end
  | Ev_assign x v =>
      Some {| mem := mem m; wrappers := wrappers m; vars := <[x := v]> (vars m) |}
  | Ev_make h s =>
      match wrappers m !! h, eval_site (vars m) s with
      | None, Some sv =>
          match MakeCallback sv with
          | Well_formed cb =>
              if alive (receiver cb) (heap (mem m))
              then Some {| mem := {| globals := globals (mem m);
                                     heap := match receiver cb with
                                             | Some l => acquire l (Owner_wrapper h) (heap (mem m))
                                             | None => heap (mem m)
                                             end |};
                           wrappers := <[h := cb]> (wrappers m);
                           vars := vars m |}
              else None
          | Ill_formed _ => None
          end
      | _, _ => None
      end
  | Ev_call h =>
      match wrappers m !! h with
      | None => None
      | Some cb =>
          match call cb (mem m) with
          | Well_formed (Done st) =>
              Some {| mem := st; wrappers := wrappers m; vars := vars m |}
          | _ => None
          end
      end
  | Ev_destroy h =>
      match wrappers m !! h with
      | None => None
      | Some cb =>
          Some {| mem := {| globals := globals (mem m);
                            heap := match receiver cb with
                                    | Some l => release l (Owner_wrapper h) (heap (mem m))
                                    | None => heap (mem m)
                                    end |};
                  wrappers := delete h (wrappers m);
                  vars := vars m |}
      end
  end.

Fixpoint run (tr : list event) (m : machine) : option machine :=
  match tr with
  | [] => Some m
  | ev :: tr' =>
      match exec ev m with
      | Some m' => run tr' m'
      | None => None
      end
  end.

End Model.

Arguments cell Class : clear implicits.
Arguments store World Class : clear implicits.
Arguments Function World Ret Args : clear implicits.
Arguments member_pointer World Class q Ret Args : clear implicits.
Arguments Callback World Class : clear implicits.
Arguments call_site World Class A : clear implicits.
Arguments machine World Class : clear implicits.
Arguments event World Class : clear implicits.
Arguments Build_member_pointer {World Class} q Ret Args member_body.
Arguments member_body {World Class q Ret Args} m _ _ _.
Arguments FunctionCallback {World Class} Ret Args m_fn m_args.
Arguments FunctionCallbackN {World Class} Ret Args m_fn.
Arguments MemberCallback {World Class} Ret Args m_obj m_fn m_args.
Arguments MemberCallbackN {World Class} Ret m_obj m_fn.
Arguments ConstMemberCallback {World Class} Ret Args m_fn m_args.
Arguments ConstMemberCallbackN {World Class} Ret m_fn.
Arguments Site_function {World Class A} Ret Params fn args.
Arguments Site_object_member {World Class A} obj q Ret Params fn args.
Arguments Site_member {World Class A} q Ret Params fn args.
Arguments Ev_make_shared {World Class} l o n.
Arguments Ev_copy {World Class} l n n'.
Arguments Ev_reset {World Class} l n.
Arguments Ev_assign {World Class} x v.
Arguments Ev_make {World Class} h s.
Arguments Ev_call {World Class} h.
Arguments Ev_destroy {World Class} h.

(** ** A client: a shared total and a counter class *)

(** The global state is one integer total; the objects are counters,
    each holding its count. *)
Module Scenario.

(** [int add(int a, int b)]: writes [a + b] to the shared total and
    returns it. *)
Definition add : Function Z (RValue TInt) [TInt; TInt] :=
  fun a _ => (fst a + fst (snd a), fst a + fst (snd a))%Z.

(** [void tick()]: adds one to the shared total. *)
Definition tick : Function Z RVoid [] :=
  fun _ w => (tt, (w + 1)%Z).

(** [void Counter::increment()] *)
Definition increment : member_pointer Z Z Non_const RVoid [] :=
  Build_member_pointer Non_const RVoid []
    (fun _ count w => (tt, (count + 1)%Z, w)).

(** [void Counter::advance(int by)] *)
Definition advance : member_pointer Z Z Non_const RVoid [TInt] :=
  Build_member_pointer Non_const RVoid [TInt]
    (fun a count w => (tt, (count + fst a)%Z, w)).

(** [void Counter::move(int by, int times)] *)
Definition move : member_pointer Z Z Non_const RVoid [TInt; TInt] :=
  Build_member_pointer Non_const RVoid [TInt; TInt]
    (fun a count w => (tt, (count + fst a * fst (snd a))%Z, w)).

(** [int Counter::read() const] *)
Definition read : member_pointer Z Z Const (RValue TInt) [] :=
  Build_member_pointer Const (RValue TInt) []
    (fun _ count w => (count, count, w)).

(** A shared pointer to the counter at address 0. *)
Definition counter : shared_ptr := {| get := Some 0 |}.

(** A store with one counter at address 0, count 10, owned by one
    client pointer. *)
Definition one_counter : store Z Z :=
  {| globals := 0%Z;
     heap := {[ 0 := {| object := 10%Z; owners := {[Owner_external 0]} |} ]} |}.

(** A client that makes a counter, hands it to a handle and drops its
    own pointer. *)
Definition orphaned_counter : list (event Z Z) :=
  [Ev_make_shared 0 10%Z 0;
   Ev_make 7 (Site_object_member counter Non_const RVoid [] increment []);
   Ev_reset 0 0].

(** A caller with two variables, and the call [MakeCallback(add, x, y)]. *)
Definition caller : machine Z Z :=
  {| mem := {| globals := 0%Z; heap := ∅ |};
     wrappers := ∅;
     vars := {[ "x" := V_int 2; "y" := V_int 3 ]} |}.

Definition add_x_y : call_site Z Z expr :=
  Site_function (RValue TInt) [TInt; TInt] add [Var "x"; Var "y"].


End Scenario.

(** ** Static shapes and consistency *)

(** What overload resolution sees of a call: kinds and types, no values. *)
Inductive callee_shape :=
| Shape_function
| Shape_object_member (q : cv)
| Shape_member (q : cv).

Definition site_params {World Class A} (s : call_site World Class A) : list ty :=
  match s with
  | Site_function _ Params _ _ => Params
  | Site_object_member _ _ _ Params _ _ => Params
  | Site_member _ _ Params _ _ => Params
  end.

Definition static_shape {World Class} (s : call_site World Class value)
    : callee_shape * list ty * list ty :=
  match s with
  | Site_function _ Params _ args => (Shape_function, Params, map type_of args)
  | Site_object_member _ q _ Params _ args =>
      (Shape_object_member q, Params, map type_of args)
  | Site_member q _ Params _ args => (Shape_member q, Params, map type_of args)
  end.

(** Every live wrapper has a [call()] that compiled, and holds a share in
    its receiver, which is therefore alive. *)
Definition consistent {World Class} (m : machine World Class) : Prop :=
  forall h cb, wrappers m !! h = Some cb ->
    is_well_formed (call_body cb) = true /\
    forall l, receiver cb = Some l ->
      exists c, heap (mem m) !! l = Some c /\ Owner_wrapper h ∈ owners c.

(** A wrapper that calls a member function through its [m_obj]. *)
Definition has_receiver {World Class} (cb : Callback World Class) : bool :=
  match cb with
  | MemberCallback _ _ _ _ _ | MemberCallbackN _ _ _ => true
  | _ => false
  end.

(** ** Further notions *)

(** The overload whose body constructs an object of the wrapper's class. *)
Definition made_by {World Class} (cb : Callback World Class) : overload :=
  match cb with
  | FunctionCallback _ _ _ _ => Make_function
  | FunctionCallbackN _ _ _ => Make_functionN
  | MemberCallback _ _ _ _ _ => Make_member
  | MemberCallbackN _ _ _ => Make_memberN
  | ConstMemberCallback _ _ _ _ => Make_const_member
  | ConstMemberCallbackN _ _ => Make_const_memberN
  end.

(** The object pointer a call hands to the factory, if its shape has one. *)
Definition site_receiver {World Class A} (s : call_site World Class A) : option nat :=
  match s with
  | Site_object_member obj _ _ _ _ _ => get obj
  | _ => None
  end.


(** Every object has an owner, and a wrapper counted among the owners
    of an object is a live one with this object as its receiver. *)
Definition owners_accounted {World Class} (m : machine World Class) : Prop :=
  forall l c, heap (mem m) !! l = Some c ->
    owners c <> ∅ /\
    forall h, Owner_wrapper h ∈ owners c ->
      exists cb, wrappers m !! h = Some cb /\ receiver cb = Some l.

(** The call [call()] stands for: the stored callable, called directly
    on the receiver [m_obj] points to (the null pointer for the
    receiverless classes) with all the stored arguments, in order. *)
Definition invoke_captured {World Class} (cb : Callback World Class)
    : store World Class -> outcome (store World Class) :=
  match cb with
  | FunctionCallback _ _ m_fn m_args => invoke_function m_fn m_args
  | FunctionCallbackN _ _ m_fn => invoke_function m_fn tt
  | MemberCallback _ _ m_obj m_fn m_args => invoke_member m_fn (get m_obj) m_args
  | MemberCallbackN _ m_obj m_fn => invoke_member m_fn (get m_obj) tt
  | ConstMemberCallback _ _ m_fn m_args => invoke_member m_fn None m_args
  | ConstMemberCallbackN _ m_fn => invoke_member m_fn None tt
  end.

(** How an argument expression initializes a by-value parameter: an
    lvalue is copied, an rvalue is moved from. *)
Inductive value_category := Lvalue | Rvalue.

(** What a moved-from object holds: a string is left empty, a scalar
    keeps its value. *)
Definition moved_from {T : ty} : sem T -> sem T :=
  match T with
  | TString => fun _ => EmptyString
  | TInt => fun z => z
  | TBool => fun b => b
  end.

(** Passing [x] to a by-value parameter: what the parameter receives,
    and what is left in [x]. *)
Definition pass (k : value_category) {T : ty} (x : sem T) : sem T * sem T :=
  match k with
  | Lvalue => (x, x)
  | Rvalue => (x, moved_from x)
  end.

Fixpoint pass_tuple (k : value_category) {Args : list ty}
    : tuple Args -> tuple Args * tuple Args :=
  match Args with
  | [] => fun t => (t, t)
  | A :: As => fun t =>
      let '(x, x') := pass k (fst t) in
      let '(r, r') := pass_tuple k (snd t) in
      ((x, r), (x', r'))
  end.

(** The elements of [m_args] passed on as values of category [k]: the
    wrapper with what the callee receives, and the wrapper as it is left. *)
Definition pass_args {World Class} (k : value_category) (cb : Callback World Class)
    : Callback World Class * Callback World Class :=
  match cb with
  | FunctionCallback Ret Args m_fn m_args =>
      let '(r, r') := pass_tuple k m_args in
      (FunctionCallback Ret Args m_fn r, FunctionCallback Ret Args m_fn r')
  | MemberCallback Ret Args m_obj m_fn m_args =>
      let '(r, r') := pass_tuple k m_args in
      (MemberCallback Ret Args m_obj m_fn r, MemberCallback Ret Args m_obj m_fn r')
  | ConstMemberCallback Ret Args m_fn m_args =>
      let '(r, r') := pass_tuple k m_args in
      (ConstMemberCallback Ret Args m_fn r, ConstMemberCallback Ret Args m_fn r')
  | _ => (cb, cb)
  end.

(** [call()] as the non-const member function it is, with the object it
    is called on threaded through. In every body [m_args] is named as a
    member, an lvalue, so [std::apply] hands its elements on as lvalues;
    [m_fn] is copied into the binder or called through the const call
    operator of [std::function], and [m_obj] is only read by [get()]. *)
Definition call_this {World Class} (cb : Callback World Class)
    (st : store World Class)
    : compiled (outcome (Callback World Class * store World Class)) :=
  let '(received, remaining) := pass_args Lvalue cb in
  match call_body received with
  | Well_formed body =>
      Well_formed match body st with
                  | Done st' => Done (remaining, st')
                  | Undefined => Undefined
                  end
  | Ill_formed d => Ill_formed d
  end.

#[global] Instance ty_eq_dec : EqDecision ty.
Proof. solve_decision. Defined.

#[global] Instance rty_eq_dec : EqDecision rty.
Proof. solve_decision. Defined.

#[global] Instance overload_eq_dec : EqDecision overload.
Proof. solve_decision. Defined.



(** * Properties *)

(** ** Deduction of the argument pack *)

Lemma as_type_value_of (T : ty) (x : sem T) : as_type T (value_of x) = Some x.
Proof. by destruct T. Qed.

Lemma as_type_Some (T : ty) (v : value) (x : sem T) :
  as_type T v = Some x -> value_of x = v /\ type_of v = T.
Proof. destruct T, v; simpl; intros [= <-]; auto. Qed.

Lemma as_type_None (T : ty) (v : value) :
  as_type T v = None -> type_of v <> T.
Proof. destruct T, v; simpl; congruence. Qed.

Lemma deduce_values_of (Args : list ty) (t : tuple Args) :
  deduce Args (values_of t) = Some t.
Proof.
  induction Args as [|A As IH]; simpl.
  - by destruct t.
  - destruct t as [x t]; simpl. by rewrite as_type_value_of, IH.
Qed.

Lemma deduce_Some (Args : list ty) (vs : list value) (t : tuple Args) :
  deduce Args vs = Some t -> values_of t = vs /\ map type_of vs = Args.
Proof.
  revert vs t. induction Args as [|A As IH]; intros [|v vs] t; simpl; try done.
  destruct (as_type A v) as [x|] eqn:Ex; [|done].
  destruct (deduce As vs) as [t'|] eqn:Et; [|done].
  intros [= <-]; simpl.
  destruct (as_type_Some _ _ _ Ex) as [-> <-].
  destruct (IH _ _ Et) as [-> <-]. done.
Qed.

Lemma deduce_None (Args : list ty) (vs : list value) :
  deduce Args vs = None -> map type_of vs <> Args.
Proof.
  revert vs. induction Args as [|A As IH]; intros [|v vs]; simpl; try done.
  destruct (as_type A v) as [x|] eqn:Ex.
  - destruct (deduce As vs) as [t'|] eqn:Et; [done|].
    intros _ [= _ E]. by apply (IH _ Et).
  - intros _ [= E _]. by apply (as_type_None _ _ Ex).
Qed.

Lemma deduce_types (Args : list ty) (vs : list value) :
  map type_of vs = Args -> exists t, deduce Args vs = Some t.
Proof.
  intros E. destruct (deduce Args vs) as [t|] eqn:Et; [eauto|].
  by apply deduce_None in Et.
Qed.

Lemma convert_same (A : ty) : exists c, convert A A = Some c /\ forall x, c x = x.
Proof. destruct A; eexists; split; simpl; eauto. Qed.

Section Factory.
Context {World Class : Type}.
Implicit Types (st : store World Class) (cb : Callback World Class).
Implicit Types (s : call_site World Class value).

#[local] Arguments deduce : simpl never.

(** *** Which bodies compile *)

Lemma std_bind_1_one q Ret A (fn : member_pointer World Class q Ret [A]) p :
  std_bind_1 fn (Raw_pointer p) [A]
  = Well_formed (fun t => invoke_member fn p (fst t, tt)).
Proof. by destruct A. Qed.

Lemma call_body_member_one Ret A obj (fn : member_pointer World Class Non_const Ret [A]) a :
  call_body (MemberCallback Ret [A] obj fn a)
  = Well_formed (invoke_member fn (get obj) a).
Proof.
  unfold call_body. rewrite std_bind_1_one. destruct a as [x []]. done.
Qed.

Lemma call_body_member_nil Ret obj (fn : member_pointer World Class Non_const Ret []) a :
  call_body (MemberCallback Ret [] obj fn a) = Ill_formed Placeholder_without_argument.
Proof. done. Qed.

Lemma call_body_member_many Ret A B Bs obj
    (fn : member_pointer World Class Non_const Ret (A :: B :: Bs)) a :
  call_body (MemberCallback Ret (A :: B :: Bs) obj fn a)
  = Ill_formed Wrong_number_of_arguments.
Proof. done. Qed.

Lemma call_body_const_member Ret Args (fn : member_pointer World Class Const Ret Args) a :
  is_well_formed (call_body (Class := Class) (ConstMemberCallback Ret Args fn a)) = false.
Proof.
  destruct Args as [|A [|B Bs]]; try done.
  simpl. by destruct A.
Qed.

(** *** What the factory returns, shape by shape *)

Lemma MakeCallback_function_nil Ret (fn : Function World Ret []) args :
  MakeCallback (Class := Class) (Site_function Ret [] fn args)
  = match args with
    | [] => Well_formed (FunctionCallbackN Ret [] fn)
    | _ :: _ => Ill_formed No_matching_overload
    end.
Proof. by destruct args. Qed.

Lemma MakeCallback_function_cons Ret A As (fn : Function World Ret (A :: As)) args :
  MakeCallback (Class := Class) (Site_function Ret (A :: As) fn args)
  = match deduce (A :: As) args with
    | Some a => Well_formed (FunctionCallback Ret (A :: As) fn a)
    | None => Ill_formed No_matching_overload
    end.
Proof.
  unfold MakeCallback, best_viable, viable; simpl.
  destruct (deduce (A :: As) args) eqn:E; simpl; by rewrite ?E.
Qed.

Lemma MakeCallback_member_nil Ret obj (fn : member_pointer World Class Non_const Ret []) args :
  MakeCallback (Site_object_member obj Non_const Ret [] fn args)
  = match args with
    | [] => Well_formed (MemberCallbackN Ret obj fn)
    | _ :: _ => Ill_formed No_matching_overload
    end.
Proof. by destruct args. Qed.

Lemma MakeCallback_member_cons Ret A As obj
    (fn : member_pointer World Class Non_const Ret (A :: As)) args :
  MakeCallback (Site_object_member obj Non_const Ret (A :: As) fn args)
  = match deduce (A :: As) args with
    | Some a => instantiate_class (MemberCallback Ret (A :: As) obj fn a)
    | None => Ill_formed No_matching_overload
    end.
Proof.
  unfold MakeCallback, best_viable, viable; simpl.
  destruct (deduce (A :: As) args) eqn:E; simpl; by rewrite ?E.
Qed.

Lemma MakeCallback_member_const Ret Params obj
    (fn : member_pointer World Class Const Ret Params) args :
  MakeCallback (Site_object_member obj Const Ret Params fn args)
  = Ill_formed No_matching_overload.
Proof. by destruct Params. Qed.

Lemma MakeCallback_receiverless q Ret Params
    (fn : member_pointer World Class q Ret Params) args :
  MakeCallback (Site_member q Ret Params fn args)
  = match q with
    | Non_const =>
        match deduce Params args with
        | Some _ => Ill_formed No_matching_constructor
        | None => Ill_formed No_matching_overload
        end
    | Const => Ill_formed No_matching_overload
    end.
Proof.
  destruct q; [|by destruct Params].
  destruct Params as [|A As].
  - destruct args; reflexivity.
  - unfold MakeCallback, best_viable, viable; simpl.
    destruct (deduce (A :: As) args) eqn:E; simpl; by rewrite ?E.
Qed.

(** A handle the factory returns has a [call()] that compiled. *)
Lemma MakeCallback_well_formed s cb :
  MakeCallback s = Well_formed cb -> is_well_formed (call_body cb) = true.
Proof.
  destruct s as [Ret Params fn args|obj q Ret Params fn args|q Ret Params fn args].
  - destruct Params as [|A As].
    + rewrite MakeCallback_function_nil. destruct args; [|done]. by intros [= <-].
    + rewrite MakeCallback_function_cons.
      destruct (deduce (A :: As) args); [|done]. by intros [= <-].
  - destruct q; [|by rewrite MakeCallback_member_const].
    destruct Params as [|A As].
    + rewrite MakeCallback_member_nil. destruct args; [|done]. by intros [= <-].
    + rewrite MakeCallback_member_cons.
      destruct (deduce (A :: As) args) as [a|]; [|done].
      unfold instantiate_class.
      destruct (call_body (MemberCallback Ret (A :: As) obj fn a)) eqn:E; [|done].
      intros [= <-]. by rewrite E.
  - rewrite MakeCallback_receiverless.
    destruct q; [|done]. by destruct (deduce Params args).
Qed.

(** The arguments a handle holds are the ones the factory was given. *)
Lemma MakeCallback_captured s cb :
  MakeCallback s = Well_formed cb -> captured_arguments cb = site_args s.
Proof.
  destruct s as [Ret Params fn args|obj q Ret Params fn args|q Ret Params fn args].
  - destruct Params as [|A As].
    + rewrite MakeCallback_function_nil. destruct args; [|done]. by intros [= <-].
    + rewrite MakeCallback_function_cons.
      destruct (deduce (A :: As) args) as [a|] eqn:E; [|done]. intros [= <-].
      by apply deduce_Some in E as [E _].
  - destruct q; [|by rewrite MakeCallback_member_const].
    destruct Params as [|A As].
    + rewrite MakeCallback_member_nil. destruct args; [|done]. by intros [= <-].
    + rewrite MakeCallback_member_cons.
      destruct (deduce (A :: As) args) as [a|] eqn:E; [|done].
      unfold instantiate_class.
      destruct (call_body (MemberCallback Ret (A :: As) obj fn a)); [|done].
      intros [= <-]. by apply deduce_Some in E as [E _].
  - rewrite MakeCallback_receiverless.
    destruct q; [|done]. by destruct (deduce Params args).
Qed.

End Factory.

Section Resolution.
Context {World Class : Type}.
Implicit Types (st : store World Class) (cb : Callback World Class).
Implicit Types (s : call_site World Class value).

#[local] Arguments deduce : simpl never.

Lemma deduce_same_types (Ps : list ty) (vs vs' : list value) :
  map type_of vs' = map type_of vs ->
  match deduce Ps vs' with Some _ => true | None => false end
  = match deduce Ps vs with Some _ => true | None => false end.
Proof.
  intros E.
  destruct (deduce Ps vs') as [t'|] eqn:E', (deduce Ps vs) as [t|] eqn:Et; try done.
  - apply deduce_Some in E' as [_ E']. apply deduce_None in Et. congruence.
  - apply deduce_Some in Et as [_ Et]. apply deduce_None in E'. congruence.
Qed.

Lemma viable_shape o s s' :
  static_shape s' = static_shape s -> viable o s' = viable o s.
Proof.
  destruct s as [Ret Ps fn args|obj q Ret Ps fn args|q Ret Ps fn args],
           s' as [Ret' Ps' fn' args'|obj' q' Ret' Ps' fn' args'|q' Ret' Ps' fn' args'];
    simpl; intros [= ]; subst; try done.
  - pose proof (deduce_same_types Ps _ _ H1) as D.
    destruct o; try done; unfold viable; simpl.
    + destruct (deduce Ps args'), (deduce Ps args); done.
    + destruct Ps; [|done]. destruct args, args'; done.
  - pose proof (deduce_same_types Ps _ _ H2) as D.
    destruct o; try done; unfold viable; simpl.
    + destruct q; [|done]. destruct (deduce Ps args'), (deduce Ps args); done.
    + destruct q, Ps; try done. destruct args, args'; done.
  - pose proof (deduce_same_types Ps _ _ H2) as D.
    destruct o; try done; unfold viable; simpl.
    + destruct q; [|done]. destruct (deduce Ps args'), (deduce Ps args); done.
    + destruct q, Ps; try done. destruct args, args'; done.
Qed.

Lemma best_viable_shape s s' :
  static_shape s' = static_shape s -> best_viable s' = best_viable s.
Proof.
  intros E. unfold best_viable.
  by rewrite (List.filter_ext _ _ (fun o => viable_shape o s s' E)).
Qed.

(** The outcome of overload resolution, shape by shape: nothing is
    viable, or one overload is the best viable one. *)
Lemma best_viable_cases s :
  best_viable s
  = match s with
    | Site_function _ Ps _ args =>
        match deduce Ps args with
        | None => []
        | Some _ => match Ps with [] => [Make_functionN] | _ :: _ => [Make_function] end
        end
    | Site_object_member _ q _ Ps _ args =>
        match q, deduce Ps args with
        | Non_const, Some _ =>
            match Ps with [] => [Make_memberN] | _ :: _ => [Make_member] end
        | _, _ => []
        end
    | Site_member q _ Ps _ args =>
        match q, deduce Ps args with
        | Non_const, Some _ =>
            match Ps with [] => [Make_const_memberN] | _ :: _ => [Make_const_member] end
        | _, _ => []
        end
    end.
Proof.
  destruct s as [Ret Ps fn args|obj q Ret Ps fn args|q Ret Ps fn args].
  - destruct Ps as [|A As].
    + destruct args; reflexivity.
    + unfold best_viable, viable; simpl.
      destruct (deduce (A :: As) args); reflexivity.
  - destruct q; [|by destruct (deduce Ps args)].
    destruct Ps as [|A As].
    + destruct args; reflexivity.
    + unfold best_viable, viable; simpl.
      destruct (deduce (A :: As) args); reflexivity.
  - destruct q; [|by destruct (deduce Ps args)].
    destruct Ps as [|A As].
    + destruct args; reflexivity.
    + unfold best_viable, viable; simpl.
      destruct (deduce (A :: As) args); reflexivity.
Qed.

Lemma viable_variadic_deduces s :
  viable Make_function s = true \/ viable Make_member s = true
  \/ viable Make_const_member s = true ->
  exists o, best_viable s = [o].
Proof.
  rewrite best_viable_cases. unfold viable.
  destruct s as [Ret Ps fn args|obj q Ret Ps fn args|q Ret Ps fn args]; simpl.
  - destruct (deduce Ps args); [destruct Ps; eauto|]. intros [|[|]]; done.
  - destruct q; [|intros [|[|]]; done].
    destruct (deduce Ps args); [destruct Ps; eauto|]. intros [|[|]]; done.
  - destruct q; [|intros [|[|]]; done].
    destruct (deduce Ps args); [destruct Ps; eauto|]. intros [|[|]]; done.
Qed.

Lemma mismatch_no_overload s :
  map type_of (site_args s) <> site_params s ->
  MakeCallback s = Ill_formed No_matching_overload.
Proof.
  intros Hne. unfold MakeCallback. rewrite best_viable_cases.
  destruct s as [Ret Ps fn args|obj q Ret Ps fn args|q Ret Ps fn args]; simpl in *.
  - destruct (deduce Ps args) as [t|] eqn:E; [|done].
    by apply deduce_Some in E as [_ E].
  - destruct q; [|done].
    destruct (deduce Ps args) as [t|] eqn:E; [|done].
    by apply deduce_Some in E as [_ E].
  - destruct q; [|done].
    destruct (deduce Ps args) as [t|] eqn:E; [|done].
    by apply deduce_Some in E as [_ E].
Qed.

End Resolution.

Section Ownership.
Context {World Class : Type}.
Implicit Types (st : store World Class) (cb : Callback World Class).
Implicit Types (m : machine World Class) (hp : gmap nat (cell Class)).
Implicit Types (o : owner) (l : nat).

Lemma acquire_keeps l o hp l' c o' :
  hp !! l' = Some c -> o' ∈ owners c ->
  exists c', acquire l o hp !! l' = Some c' /\ o' ∈ owners c'.
Proof.
  intros Hc Ho. unfold acquire.
  destruct (hp !! l) as [d|] eqn:Hd; [|eauto].
  destruct (decide (l = l')) as [->|Hne].
  - rewrite lookup_insert_eq. eexists; split; [done|]. simpl.
    assert (d = c) as -> by congruence. set_solver.
  - rewrite lookup_insert_ne by done. eauto.
Qed.

Lemma acquire_owns l o hp :
  is_Some (hp !! l) ->
  exists c', acquire l o hp !! l = Some c' /\ o ∈ owners c'.
Proof.
  intros [c Hc]. unfold acquire. rewrite Hc, lookup_insert_eq.
  eexists; split; [done|]. simpl. set_solver.
Qed.

Lemma release_keeps l o hp l' c o' :
  hp !! l' = Some c -> o' ∈ owners c -> o' <> o ->
  exists c', release l o hp !! l' = Some c' /\ o' ∈ owners c'.
Proof.
  intros Hc Ho Hne. unfold release.
  destruct (hp !! l) as [d|] eqn:Hd; [|eauto].
  destruct (decide (l = l')) as [->|Hl].
  - assert (d = c) as -> by congruence.
    destruct (decide (owners c ∖ {[o]} = ∅)) as [He|He]; [set_solver|].
    rewrite lookup_insert_eq. eexists; split; [done|]. simpl. set_solver.
  - destruct (decide (owners d ∖ {[o]} = ∅)).
    + rewrite lookup_delete_ne by done. eauto.
    + rewrite lookup_insert_ne by done. eauto.
Qed.

(** Running a body keeps every object and its owners. *)
Lemma invoke_member_owners q Ret Args (fn : member_pointer World Class q Ret Args)
    p a st st' l :
  invoke_member fn p a st = Done st' ->
  owners <$> heap st' !! l = owners <$> heap st !! l.
Proof.
  unfold invoke_member. destruct p as [r|]; [|done].
  destruct (heap st !! r) as [c|] eqn:Hc; [|done].
  destruct (member_body fn a (object c) (globals st)) as [[x ob] w].
  intros [= <-]; simpl.
  destruct (decide (r = l)) as [->|Hne].
  - by rewrite lookup_insert_eq, Hc.
  - by rewrite lookup_insert_ne.
Qed.

Lemma call_owners cb st st' l :
  call cb st = Well_formed (Done st') ->
  owners <$> heap st' !! l = owners <$> heap st !! l.
Proof.
  unfold call.
  destruct cb as [Ret Args f a|Ret Args f|Ret Args obj fn a|Ret obj fn|Ret Args fn a|Ret fn];
    simpl.
  - by intros [= <-].
  - by intros [= <-].
  - destruct Args as [|A [|B Bs]]; try done.
    rewrite std_bind_1_one. intros [= E]. by eapply invoke_member_owners.
  - intros [= E]. by eapply invoke_member_owners.
  - pose proof (call_body_const_member Ret Args fn a (Class := Class)) as Hc.
    simpl in Hc. by destruct (std_bind_1 fn Nullptr_literal Args).
  - done.
Qed.

(** A wrapper whose [call()] compiled and whose receiver, if it needs
    one, is alive, can be called. *)
Lemma call_defined cb st :
  is_well_formed (call_body cb) = true ->
  (has_receiver cb = true -> exists l, receiver cb = Some l /\ is_Some (heap st !! l)) ->
  exists st', call cb st = Well_formed (Done st').
Proof.
  unfold call.
  destruct cb as [Ret Args f a|Ret Args f|Ret Args obj fn a|Ret obj fn|Ret Args fn a|Ret fn];
    simpl.
  - eauto.
  - eauto.
  - destruct Args as [|A [|B Bs]]; try done.
    rewrite std_bind_1_one. intros _ Hr.
    destruct (Hr eq_refl) as (l & Hl & [c Hc]).
    unfold std_apply, invoke_member. rewrite Hl, Hc.
    destruct (member_body fn _ (object c) (globals st)) as [[x ob] w]. eauto.
  - intros _ Hr. destruct (Hr eq_refl) as (l & Hl & [c Hc]).
    unfold invoke_member. rewrite Hl, Hc.
    destruct (member_body fn _ (object c) (globals st)) as [[x ob] w]. eauto.
  - pose proof (call_body_const_member Ret Args fn a (Class := Class)) as Hc.
    simpl in Hc. by destruct (std_bind_1 fn Nullptr_literal Args).
  - done.
Qed.

(** *** One step *)

Lemma exec_wrappers ev m m' h cb :
  exec ev m = Some m' -> wrappers m !! h = Some cb ->
  wrappers m' !! h = Some cb \/ ev = Ev_destroy h.
Proof.
  intros He Hw. destruct ev as [l ob n|l n n'|l n|x v|h' s|h'|h']; simpl in He.
  - destruct (heap (mem m) !! l); [done|]. injection He as <-. by left.
  - destruct (heap (mem m) !! l) as [c|]; [|done].
    destruct (decide _); [|done]. injection He as <-. by left.
  - destruct (heap (mem m) !! l) as [c|]; [|done].
    destruct (decide _); [|done]. injection He as <-. by left.
  - injection He as <-. by left.
  - destruct (wrappers m !! h') eqn:Hh'; [done|].
    destruct (eval_site (vars m) s) as [sv|]; [|done].
    destruct (MakeCallback sv) as [cb'|]; [|done].
    destruct (alive _ _); [|done]. injection He as <-. left; simpl.
    rewrite lookup_insert_ne; [done|congruence].
  - destruct (wrappers m !! h'); [|done].
    destruct (call _ _) as [[st|]|]; try done. injection He as <-. by left.
  - destruct (wrappers m !! h') eqn:Hh'; [|done]. injection He as <-. simpl.
    destruct (decide (h' = h)) as [->|Hne]; [by right|left].
    by rewrite lookup_delete_ne.
Qed.

Lemma consistent_initial (w : World) : consistent (initial (Class := Class) w).
Proof. intros h cb. unfold initial; simpl. by rewrite lookup_empty. Qed.

Lemma consistent_exec ev m m' : consistent m -> exec ev m = Some m' -> consistent m'.
Proof.
  intros Hm He h cb Hw.
  destruct ev as [l ob n|l n n'|l n|x v|h' s|h'|h']; simpl in He.
  - destruct (heap (mem m) !! l) eqn:Hl; [done|]. injection He as <-. simpl in *.
    destruct (Hm h cb Hw) as [Hwf Hr]. split; [done|].
    intros r Er. destruct (Hr r Er) as (c & Hc & Ho).
    exists c. split; [|done]. rewrite lookup_insert_ne; [done|congruence].
  - destruct (heap (mem m) !! l) as [c0|] eqn:Hl; [|done].
    destruct (decide _); [|done]. injection He as <-. simpl in *.
    destruct (Hm h cb Hw) as [Hwf Hr]. split; [done|].
    intros r Er. destruct (Hr r Er) as (c & Hc & Ho). by eapply acquire_keeps.
  - destruct (heap (mem m) !! l) as [c0|] eqn:Hl; [|done].
    destruct (decide _); [|done]. injection He as <-. simpl in *.
    destruct (Hm h cb Hw) as [Hwf Hr]. split; [done|].
    intros r Er. destruct (Hr r Er) as (c & Hc & Ho). by eapply release_keeps.
  - injection He as <-. simpl in *. by apply Hm.
  - destruct (wrappers m !! h') eqn:Hh'; [done|].
    destruct (eval_site (vars m) s) as [sv|]; [|done].
    destruct (MakeCallback sv) as [cb'|] eqn:Hmk; [|done].
    destruct (alive _ _) eqn:Hal; [|done]. injection He as <-. simpl in *.
    destruct (decide (h' = h)) as [->|Hne].
    + rewrite lookup_insert_eq in Hw. injection Hw as ->.
      split; [by eapply MakeCallback_well_formed|].
      intros r Er. rewrite Er in *. simpl in Hal.
      apply bool_decide_eq_true in Hal. by apply acquire_owns.
    + rewrite lookup_insert_ne in Hw by done.
      destruct (Hm h cb Hw) as [Hwf Hr]. split; [done|].
      intros r Er. destruct (Hr r Er) as (c & Hc & Ho).
      destruct (receiver cb'); [by eapply acquire_keeps|eauto].
  - destruct (wrappers m !! h') as [cb'|]; [|done].
    destruct (call cb' (mem m)) as [[st|]|] eqn:Hcall; try done.
    injection He as <-. simpl in *.
    destruct (Hm h cb Hw) as [Hwf Hr]. split; [done|].
    intros r Er. destruct (Hr r Er) as (c & Hc & Ho).
    pose proof (call_owners _ _ _ r Hcall) as Eo. rewrite Hc in Eo. simpl in Eo.
    destruct (heap st !! r) as [c'|]; [|done]. injection Eo as Eo.
    exists c'. by rewrite Eo.
  - destruct (wrappers m !! h') as [cb'|] eqn:Hh'; [|done].
    injection He as <-. simpl in *.
    destruct (decide (h' = h)) as [->|Hne]; [by rewrite lookup_delete_eq in Hw|].
    rewrite lookup_delete_ne in Hw by done.
    destruct (Hm h cb Hw) as [Hwf Hr]. split; [done|].
    intros r Er. destruct (Hr r Er) as (c & Hc & Ho).
    destruct (receiver cb'); [|eauto].
    eapply release_keeps; [done..|congruence].
Qed.

Lemma consistent_run tr m m' : consistent m -> run tr m = Some m' -> consistent m'.
Proof.
  revert m. induction tr as [|ev tr IH]; intros m Hm; simpl.
  - by intros [= <-].
  - destruct (exec ev m) as [m1|] eqn:He; [|done].
    apply IH. by eapply consistent_exec.
Qed.

Lemma run_wrappers tr m m' h cb :
  run tr m = Some m' -> wrappers m !! h = Some cb -> Ev_destroy h ∉ tr ->
  wrappers m' !! h = Some cb.
Proof.
  revert m. induction tr as [|ev tr IH]; intros m; simpl.
  - by intros [= <-].
  - destruct (exec ev m) as [m1|] eqn:He; [|done].
    intros Hr Hw Hn. apply not_elem_of_cons in Hn as [Hne Hn].
    destruct (exec_wrappers _ _ _ _ _ He Hw) as [Hw1| ->]; [|done].
    by apply (IH m1).
Qed.

End Ownership.

Section Claims_static.
Context {World Class : Type}.
Implicit Types (st : store World Class) (cb : Callback World Class).
Implicit Types (s : call_site World Class value).

(** What holds of the bound-method overloads: with no argument and with
    one argument, the handle calls the member on the receiver given to
    the factory. *)
Lemma member_handle_no_argument Ret (obj : shared_ptr)
    (fn : member_pointer World Class Non_const Ret []) st :
  exists cb,
    MakeCallback (Site_object_member obj Non_const Ret [] fn []) = Well_formed cb /\
    receiver cb = get obj /\
    call cb st = Well_formed (invoke_member fn (get obj) tt st).
Proof. exists (MemberCallbackN Ret obj fn). by rewrite MakeCallback_member_nil. Qed.

Lemma member_handle_one_argument Ret A (obj : shared_ptr)
    (fn : member_pointer World Class Non_const Ret [A]) (x : sem A) st :
  exists cb,
    MakeCallback (Site_object_member obj Non_const Ret [A] fn [value_of x])
    = Well_formed cb /\
    receiver cb = get obj /\
    call cb st = Well_formed (invoke_member fn (get obj) (x, tt) st).
Proof.
  exists (MemberCallback Ret [A] obj fn (x, tt)).
  rewrite MakeCallback_member_cons.
  change [value_of x] with (values_of (Args := [A]) (x, tt)).
  rewrite deduce_values_of. unfold instantiate_class, call.
  by rewrite call_body_member_one.
Qed.

(** The two free-function wrappers agree on the empty tuple. *)
Lemma function_nullary_as_empty_tuple Ret (f : Function World Ret []) st :
  call (Class := Class) (FunctionCallbackN Ret [] f) st
  = call (FunctionCallback Ret [] f tt) st.
Proof. done. Qed.

(** No call of the receiverless shape yields a handle. *)
Lemma receiverless_never_constructs q Ret Params
    (fn : member_pointer World Class q Ret Params) args :
  is_well_formed (MakeCallback (Site_member q Ret Params fn args)) = false.
Proof.
  rewrite MakeCallback_receiverless. destruct q; [|done].
  by destruct (deduce Params args).
Qed.

(** C1: for every free function [f] and every argument tuple [a] of it,
    the free-function overloads of [MakeCallback] return a handle that
    holds [a] in the original order, and [call()] on it has the effect of
    the direct call [f(a...)]. *)
Theorem C1_function_handle_calls_function Ret Args
    (f : Function World Ret Args) (a : tuple Args) st :
  exists cb : Callback World Class,
    MakeCallback (Site_function Ret Args f (values_of a)) = Well_formed cb /\
    captured_arguments cb = values_of a /\
    call cb st = Well_formed (invoke_function f a st).
Proof.
  destruct Args as [|A As].
  - destruct a. exists (FunctionCallbackN Ret [] f). by rewrite MakeCallback_function_nil.
  - exists (FunctionCallback Ret (A :: As) f a).
    by rewrite MakeCallback_function_cons, deduce_values_of.
Qed.

(** C3: overload resolution never ends in an ambiguity; a call whose
    shape one of the three variadic overloads accepts selects exactly one
    overload; the selection is the same for calls of the same static
    shape; a call whose trailing arguments differ in number or type from
    the callable's parameters is rejected by the factory; and a handle
    the factory returns has a [call()] that compiled, so no mismatch is
    left for the invocation. *)
Theorem C3_resolution_is_static_and_unique s :
  length (best_viable s) <= 1 /\
  (viable Make_function s = true \/ viable Make_member s = true
   \/ viable Make_const_member s = true ->
   exists o, best_viable s = [o]) /\
  (forall s' : call_site World Class value,
     static_shape s' = static_shape s -> best_viable s' = best_viable s) /\
  (map type_of (site_args s) <> site_params s ->
   MakeCallback s = Ill_formed No_matching_overload) /\
  (forall cb, MakeCallback s = Well_formed cb ->
     exists body, call_body cb = Well_formed body).
Proof.
  split; [|split; [|split; [|split]]].
  - rewrite best_viable_cases.
    destruct s as [Ret Ps fn args|obj q Ret Ps fn args|q Ret Ps fn args].
    + destruct (deduce Ps args), Ps; simpl; lia.
    + destruct q, (deduce Ps args), Ps; simpl; lia.
    + destruct q, (deduce Ps args), Ps; simpl; lia.
  - apply viable_variadic_deduces.
  - intros s'. apply best_viable_shape.
  - apply mismatch_no_overload.
  - intros cb E. apply MakeCallback_well_formed in E.
    destruct (call_body cb); [eauto|done].
Qed.

(** C10: [call()] of the bound-method wrapper with arguments compiles
    exactly when one argument was captured, and then calls the member on
    the receiver with this argument; [call()] of the receiverless wrapper
    with arguments does not compile when the number of captured arguments
    is not one. *)
Theorem C10_placeholder_takes_one_argument Ret Args (obj : shared_ptr)
    (fn : member_pointer World Class Non_const Ret Args)
    (cfn : member_pointer World Class Const Ret Args) (a : tuple Args) :
  (is_well_formed (call_body (MemberCallback Ret Args obj fn a)) = true
   <-> length Args = 1) /\
  (length Args = 1 ->
   call_body (MemberCallback Ret Args obj fn a)
   = Well_formed (invoke_member fn (get obj) a)) /\
  (length Args <> 1 ->
   is_well_formed (call_body (Class := Class) (ConstMemberCallback Ret Args cfn a))
   = false).
Proof.
  destruct Args as [|A [|B Bs]].
  - repeat split; done.
  - repeat split; try done.
    + by rewrite call_body_member_one.
    + intros _. apply call_body_member_one.
  - repeat split; try done.
Qed.

End Claims_static.

Section Claims_dynamic.
Context {World Class : Type}.
Implicit Types (st : store World Class) (cb : Callback World Class).
Implicit Types (m : machine World Class) (hp : gmap nat (cell Class)).

Lemma eval_site_args (vs : gmap string value) (s : call_site World Class expr) sv :
  eval_site vs s = Some sv -> eval_list vs (site_args s) = Some (site_args sv).
Proof.
  destruct s as [Ret Ps fn args|obj q Ret Ps fn args|q Ret Ps fn args]; simpl;
    destruct (eval_list vs args); intros [= <-]; done.
Qed.

Lemma run_assignments (asg : list (string * value)) m :
  exists m', run (map (fun xv => Ev_assign xv.1 xv.2) asg) m = Some m' /\
             mem m' = mem m /\ wrappers m' = wrappers m.
Proof.
  revert m. induction asg as [|[x v] asg IH]; intros m; simpl; [eauto|].
  destruct (IH {| mem := mem m; wrappers := wrappers m; vars := <[x := v]> (vars m) |})
    as (m' & Hr & Hm & Hw).
  eauto.
Qed.

Lemma exec_call_defined m h cb :
  consistent m -> wrappers m !! h = Some cb ->
  (has_receiver cb = true -> is_Some (receiver cb)) ->
  exists body st',
    call_body cb = Well_formed body /\ body (mem m) = Done st' /\
    exec (Ev_call h) m = Some {| mem := st'; wrappers := wrappers m; vars := vars m |}.
Proof.
  intros Hm Hw Hr. destruct (Hm h cb Hw) as [Hwf Hal].
  destruct (call_defined cb (mem m) Hwf) as [st' Hc].
  { intros Hb. destruct (Hr Hb) as [l Hl]. exists l. split; [done|].
    destruct (Hal l Hl) as (c & -> & _). eauto. }
  simpl. rewrite Hw, Hc. unfold call in Hc.
  destruct (call_body cb) as [body|]; [|done]. injection Hc as Hc. eauto.
Qed.

Lemma pass_tuple_lvalue (Args : list ty) (t : tuple Args) :
  pass_tuple Lvalue t = (t, t).
Proof.
  induction Args as [|A As IH]; simpl; [done|].
  destruct t as [x r]; simpl. by rewrite IH.
Qed.

Lemma pass_args_lvalue cb : pass_args Lvalue cb = (cb, cb).
Proof.
  destruct cb as [Ret Args f a|Ret Args f|Ret Args obj fn a|Ret obj fn|Ret Args fn a|Ret fn];
    simpl; by rewrite ?pass_tuple_lvalue.
Qed.

(** A body that compiled is the direct call of the stored callable with
    the stored arguments. *)
Lemma call_body_invoke_captured cb body st :
  call_body cb = Well_formed body -> body st = invoke_captured cb st.
Proof.
  destruct cb as [Ret Args f a|Ret Args f|Ret Args obj fn a|Ret obj fn|Ret Args fn a|Ret fn];
    simpl.
  - by intros [= <-].
  - by intros [= <-].
  - destruct Args as [|A [|B Bs]]; try done.
    rewrite std_bind_1_one. intros [= <-]. unfold std_apply. by destruct a as [x []].
  - by intros [= <-].
  - pose proof (call_body_const_member Ret Args fn a (Class := Class)) as Hc.
    simpl in Hc. by destruct (std_bind_1 fn Nullptr_literal Args).
  - done.
Qed.

Lemma call_this_unchanged cb st body st' :
  call_body cb = Well_formed body -> body st = Done st' ->
  call_this cb st = Well_formed (Done (cb, st')).
Proof.
  intros Hb Hs. unfold call_this. by rewrite pass_args_lvalue, Hb, Hs.
Qed.

(** C4: in a running program, a handle whose receiver pointer (if its
    wrapper has one) is not empty can be called twice in a row. Each of
    the two calls is the direct call of the stored callable on the stored
    arguments, in order; each leaves the wrapper object, target and
    stored tuple, as it was, so the second call runs on the same
    arguments as the first. *)
Theorem C4_second_call_same_arguments tr (w : World) m h cb :
  run tr (initial w) = Some m -> wrappers m !! h = Some cb ->
  (has_receiver cb = true -> is_Some (receiver cb)) ->
  exists body m1 m2,
    call_body cb = Well_formed body /\
    (forall st, body st = invoke_captured cb st) /\
    exec (Ev_call h) m = Some m1 /\
    invoke_captured cb (mem m) = Done (mem m1) /\
    call_this cb (mem m) = Well_formed (Done (cb, mem m1)) /\
    wrappers m1 !! h = Some cb /\
    exec (Ev_call h) m1 = Some m2 /\
    invoke_captured cb (mem m1) = Done (mem m2) /\
    call_this cb (mem m1) = Well_formed (Done (cb, mem m2)) /\
    wrappers m2 !! h = Some cb.
Proof.
  intros Hrun Hw Hr.
  assert (consistent m) as Hm by (eapply consistent_run; [apply consistent_initial|done]).
  destruct (exec_call_defined m h cb Hm Hw Hr) as (body & st1 & Hb & H1 & E1).
  set (m1 := {| mem := st1; wrappers := wrappers m; vars := vars m |}) in *.
  assert (consistent m1) as Hm1 by (by eapply consistent_exec).
  destruct (exec_call_defined m1 h cb Hm1 Hw Hr) as (body' & st2 & Hb' & H2 & E2).
  assert (body' = body) as -> by congruence.
  exists body, m1, {| mem := st2; wrappers := wrappers m1; vars := vars m1 |}.
  split; [done|]. split; [intros st; by apply call_body_invoke_captured|].
  split; [done|]. split; [by rewrite <- (call_body_invoke_captured cb body)|].
  split; [by eapply call_this_unchanged|]. split; [done|].
  split; [done|]. split; [by rewrite <- (call_body_invoke_captured cb body)|].
  split; [by eapply call_this_unchanged|]. done.
Qed.

(** C5: the handle made by a factory call holds the values its argument
    expressions had when the call was made; whatever is assigned to the
    caller's variables afterwards, the handle stands for the same wrapper
    and calling it has the same effect on memory. *)
Theorem C5_arguments_are_a_snapshot m h (s : call_site World Class expr) m1
    (asg : list (string * value)) :
  exec (Ev_make h s) m = Some m1 ->
  exists m2 cb,
    run (map (fun xv => Ev_assign xv.1 xv.2) asg) m1 = Some m2 /\
    wrappers m1 !! h = Some cb /\ wrappers m2 !! h = Some cb /\
    eval_list (vars m) (site_args s) = Some (captured_arguments cb) /\
    mem <$> exec (Ev_call h) m2 = mem <$> exec (Ev_call h) m1.
Proof.
  intros He. simpl in He.
  destruct (wrappers m !! h) eqn:Hh; [done|].
  destruct (eval_site (vars m) s) as [sv|] eqn:Hs; [|done].
  destruct (MakeCallback sv) as [cb|] eqn:Hmk; [|done].
  destruct (alive _ _); [|done]. injection He as <-.
  destruct (run_assignments asg
              {| mem := {| globals := globals (mem m);
                           heap := match receiver cb with
                                   | Some l => acquire l (Owner_wrapper h) (heap (mem m))
                                   | None => heap (mem m)
                                   end |};
                 wrappers := <[h := cb]> (wrappers m);
                 vars := vars m |}) as (m2 & Hr & Hmem & Hw).
  exists m2, cb. simpl in *.
  split; [done|]. split; [by rewrite lookup_insert_eq|].
  split; [by rewrite Hw, lookup_insert_eq|]. split.
  - rewrite (MakeCallback_captured _ _ Hmk). by apply eval_site_args.
  - rewrite Hw, Hmem, lookup_insert_eq. simpl.
    by destruct (call cb _) as [[st|]|].
Qed.


(** C9: in a running program, the receiver of every live bound-method
    handle is alive and counts the wrapper's own [m_obj] among its
    owners, so its use count is at least one and calling the handle is
    defined, whichever other owners have released the object. *)
Theorem C9_handle_keeps_receiver_alive tr (w : World) m h cb l :
  run tr (initial w) = Some m -> wrappers m !! h = Some cb ->
  receiver cb = Some l ->
  exists c, heap (mem m) !! l = Some c /\ Owner_wrapper h ∈ owners c /\
            1 <= use_count c /\
            exists st', call cb (mem m) = Well_formed (Done st').
Proof.
  intros Hrun Hw Hl.
  assert (consistent m) as Hm by (eapply consistent_run; [apply consistent_initial|done]).
  destruct (Hm h cb Hw) as [Hwf Hal]. destruct (Hal l Hl) as (c & Hc & Ho).
  exists c. repeat split; try done.
  - unfold use_count. destruct (size (owners c)) eqn:Es; [|lia].
    apply size_empty_iff in Es. set_solver.
  - apply call_defined; [done|]. intros _. exists l. by rewrite Hc.
Qed.

End Claims_dynamic.

(** * Further properties of the header *)

Section Factory_more.
Context {World Class : Type}.
Implicit Types (st : store World Class) (cb : Callback World Class).
Implicit Types (s : call_site World Class value).

#[local] Arguments deduce : simpl never.

(** The factory's result, for all shapes at once. *)
Lemma MakeCallback_cases s :
  MakeCallback s
  = match s with
    | Site_function Ret Ps fn args =>
        match deduce Ps args with
        | None => Ill_formed No_matching_overload
        | Some a =>
            match Ps return Function World Ret Ps -> tuple Ps -> _ with
            | [] => fun fn _ => Well_formed (FunctionCallbackN Ret [] fn)
            | A :: As => fun fn a => Well_formed (FunctionCallback Ret (A :: As) fn a)
            end fn a
        end
    | Site_object_member obj q Ret Ps fn args =>
        match q return member_pointer World Class q Ret Ps -> _ with
        | Const => fun _ => Ill_formed No_matching_overload
        | Non_const => fun fn =>
            match deduce Ps args with
            | None => Ill_formed No_matching_overload
            | Some a =>
                match Ps return member_pointer World Class Non_const Ret Ps
                                -> tuple Ps -> _ with
                | [] => fun fn _ => Well_formed (MemberCallbackN Ret obj fn)
                | [A] => fun fn a => Well_formed (MemberCallback Ret [A] obj fn a)
                | _ :: _ :: _ => fun _ _ => Ill_formed Wrong_number_of_arguments
                end fn a
            end
        end fn
    | Site_member q _ Ps _ args =>
        match q, deduce Ps args with
        | Non_const, Some _ => Ill_formed No_matching_constructor
        | _, _ => Ill_formed No_matching_overload
        end
    end.
Proof.
  destruct s as [Ret Ps fn args|obj q Ret Ps fn args|q Ret Ps fn args].
  - destruct Ps as [|A As].
    + rewrite MakeCallback_function_nil. by destruct args.
    + rewrite MakeCallback_function_cons. by destruct (deduce (A :: As) args).
  - destruct q; [|apply MakeCallback_member_const].
    destruct Ps as [|A As].
    + rewrite MakeCallback_member_nil. by destruct args.
    + rewrite MakeCallback_member_cons.
      destruct (deduce (A :: As) args) as [a|]; [|done].
      destruct As as [|B Bs]; [|done].
      unfold instantiate_class. by rewrite call_body_member_one.
  - rewrite MakeCallback_receiverless. destruct q; [|done].
    by destruct (deduce Ps args).
Qed.

(** X1: a handle the factory returns is an object of the class that the
    selected overload constructs; it is of an N-suffixed class exactly
    when the call has no trailing argument, so a call without arguments
    never instantiates a class with a parameter pack. *)
Theorem X1_nullary_overload_preferred s cb :
  MakeCallback s = Well_formed cb ->
  best_viable s = [made_by cb] /\
  (site_args s = [] <->
   made_by cb = Make_functionN \/ made_by cb = Make_memberN).
Proof.
  rewrite MakeCallback_cases, best_viable_cases.
  destruct s as [Ret Ps fn args|obj q Ret Ps fn args|q Ret Ps fn args]; simpl.
  - destruct (deduce Ps args) as [a|] eqn:E; [|done].
    apply deduce_Some in E as [_ E].
    destruct Ps as [|A As]; intros [= <-]; simpl.
    + destruct args; [|done]. split; [done|]. split; auto.
    + destruct args; [done|]. split; [done|]. split; [done|]. by intros [|].
  - destruct q; [|done].
    destruct (deduce Ps args) as [a|] eqn:E; [|done].
    apply deduce_Some in E as [_ E].
    destruct Ps as [|A [|B Bs]]; intros [= <-]; simpl.
    + destruct args; [|done]. split; [done|]. split; auto.
    + destruct args; [done|]. split; [done|]. split; [done|]. by intros [|].
  - by destruct q, (deduce Ps args).
Qed.

(** X2: no overload accepts a pointer to a const member function, with
    or without an object and whatever the trailing arguments are. *)
Theorem X2_const_member_pointer_rejected Ret Params (obj : shared_ptr)
    (fn : member_pointer World Class Const Ret Params) (args : list value) :
  best_viable (Site_object_member obj Const Ret Params fn args) = [] /\
  best_viable (Site_member Const Ret Params fn args) = [] /\
  MakeCallback (Site_object_member obj Const Ret Params fn args)
  = Ill_formed No_matching_overload /\
  MakeCallback (Site_member Const Ret Params fn args)
  = Ill_formed No_matching_overload.
Proof. rewrite !MakeCallback_cases, !best_viable_cases. done. Qed.

(** X3: a call of the receiverless shape never yields a handle. With a
    pointer to a non-const member and trailing arguments of the member's
    parameter types it selects a receiverless overload, whose body finds
    no constructor to call; otherwise no overload is viable. *)
Theorem X3_receiverless_never_yields_handle q Ret Params
    (fn : member_pointer World Class q Ret Params) (args : list value) :
  is_well_formed (MakeCallback (Site_member q Ret Params fn args)) = false /\
  (q = Non_const -> map type_of args = Params ->
   (exists o, best_viable (Site_member q Ret Params fn args) = [o]) /\
   MakeCallback (Site_member q Ret Params fn args)
   = Ill_formed No_matching_constructor) /\
  (q = Const \/ map type_of args <> Params ->
   MakeCallback (Site_member q Ret Params fn args)
   = Ill_formed No_matching_overload).
Proof.
  rewrite MakeCallback_cases, best_viable_cases.
  split; [by destruct q, (deduce Params args)|]. split.
  - intros -> E. destruct (deduce_types _ _ E) as [t ->].
    split; [destruct Params; eauto|done].
  - intros [->|E]; [done|]. destruct q; [|done].
    destruct (deduce Params args) as [t|] eqn:Et; [|done].
    by apply deduce_Some in Et as [_ Et].
Qed.





(** X6: the factory takes an empty shared pointer as the object without
    complaint, for a member of no or of one parameter, and every call of
    the handle it returns is undefined. *)
Theorem X6_empty_pointer_accepted_call_undefined Ret Params
    (fn : member_pointer World Class Non_const Ret Params) (a : tuple Params) :
  length Params <= 1 ->
  exists cb,
    MakeCallback (Site_object_member {| get := None |} Non_const Ret Params fn
                    (values_of a))
    = Well_formed cb /\
    forall st, call cb st = Well_formed Undefined.
Proof.
  intros Hl. rewrite MakeCallback_cases, deduce_values_of.
  destruct Params as [|A [|B Bs]]; simpl in Hl; [| |lia].
  - eexists. split; [done|]. done.
  - eexists. split; [done|]. intros st. unfold call.
    by rewrite call_body_member_one.
Qed.

(** X7: what a function returns plays no part: handles for two functions
    of the same parameters, of whatever return types, that change the
    global state alike on the captured arguments, have the same effect
    when called. *)
Theorem X7_return_value_dropped Ret Ret' Args
    (f : Function World Ret Args) (g : Function World Ret' Args) (a : tuple Args) :
  (forall w, snd (f a w) = snd (g a w)) ->
  exists cbf cbg : Callback World Class,
    MakeCallback (Site_function Ret Args f (values_of a)) = Well_formed cbf /\
    MakeCallback (Site_function Ret' Args g (values_of a)) = Well_formed cbg /\
    forall st, call cbf st = call cbg st.
Proof.
  intros E. rewrite !MakeCallback_cases, deduce_values_of.
  destruct Args as [|A As]; eexists _, _; (split; [done|]); (split; [done|]);
    intros st; unfold call; simpl; unfold std_apply, invoke_function.
  - destruct a. by rewrite E.
  - by rewrite E.
Qed.

(** X8: a handle holds what the factory was handed: the trailing
    arguments, unchanged and in order, of the callable's parameter types,
    and as receiver the pointer of the shared pointer passed as object. *)
Theorem X8_handle_holds_what_was_given s cb :
  MakeCallback s = Well_formed cb ->
  captured_arguments cb = site_args s /\
  map type_of (captured_arguments cb) = site_params s /\
  receiver cb = site_receiver s.
Proof.
  rewrite MakeCallback_cases.
  destruct s as [Ret Ps fn args|obj q Ret Ps fn args|q Ret Ps fn args]; simpl.
  - destruct (deduce Ps args) as [a|] eqn:E; [|done].
    apply deduce_Some in E as [Ev Et]. subst args.
    destruct Ps as [|A As]; intros [= <-]; repeat split; done.
  - destruct q; [|done].
    destruct (deduce Ps args) as [a|] eqn:E; [|done].
    apply deduce_Some in E as [Ev Et]. subst args.
    destruct Ps as [|A [|B Bs]]; intros [= <-]; repeat split; done.
  - by destruct q, (deduce Ps args).
Qed.

End Factory_more.

Section Ownership_more.
Context {World Class : Type}.
Implicit Types (st : store World Class) (cb : Callback World Class).
Implicit Types (m : machine World Class) (hp : gmap nat (cell Class)).
Implicit Types (o : owner) (l : nat).

Lemma acquire_lookup l o hp l' :
  acquire l o hp !! l'
  = (fun c => if decide (l = l')
              then {| object := object c; owners := owners c ∪ {[o]} |}
              else c) <$> hp !! l'.
Proof.
  unfold acquire. destruct (hp !! l) as [d|] eqn:Hd.
  - destruct (decide (l = l')) as [<-|Hne].
    + by rewrite lookup_insert_eq, Hd.
    + rewrite lookup_insert_ne by done. by destruct (hp !! l').
  - destruct (decide (l = l')) as [<-|Hne].
    + by rewrite Hd.
    + by destruct (hp !! l').
Qed.

Lemma release_lookup l o hp l' :
  release l o hp !! l'
  = match hp !! l' with
    | Some c =>
        if decide (l = l')
        then if decide (owners c ∖ {[o]} = ∅) then None
             else Some {| object := object c; owners := owners c ∖ {[o]} |}
        else Some c
    | None => None
    end.
Proof.
  unfold release. destruct (hp !! l) as [d|] eqn:Hd.
  - destruct (decide (l = l')) as [<-|Hne].
    + rewrite Hd. destruct (decide (owners d ∖ {[o]} = ∅)).
      * by rewrite lookup_delete_eq.
      * by rewrite lookup_insert_eq.
    + destruct (decide (owners d ∖ {[o]} = ∅)).
      * rewrite lookup_delete_ne by done. by destruct (hp !! l').
      * rewrite lookup_insert_ne by done. by destruct (hp !! l').
  - destruct (decide (l = l')) as [<-|Hne].
    + by rewrite Hd.
    + by destruct (hp !! l').
Qed.

Lemma owners_accounted_initial (w : World) :
  owners_accounted (initial (Class := Class) w).
Proof. intros l c. unfold initial; simpl. by rewrite lookup_empty. Qed.

Lemma owners_accounted_exec ev m m' :
  owners_accounted m -> exec ev m = Some m' -> owners_accounted m'.
Proof.
  intros Hm He l c Hc.
  destruct ev as [l0 ob n|l0 n n'|l0 n|x v|h0 s|h0|h0]; simpl in He.
  - destruct (heap (mem m) !! l0) eqn:Hl; [done|]. injection He as <-. simpl in *.
    destruct (decide (l0 = l)) as [->|Hne].
    + rewrite lookup_insert_eq in Hc. injection Hc as <-. simpl.
      split; [set_solver|]. intros h Hin.
      apply elem_of_singleton in Hin. discriminate.
    + rewrite lookup_insert_ne in Hc by done. by apply Hm.
  - destruct (heap (mem m) !! l0) as [c0|] eqn:Hl; [|done].
    destruct (decide _); [|done]. injection He as <-. simpl in *.
    rewrite acquire_lookup in Hc.
    destruct (heap (mem m) !! l) as [c1|] eqn:Hc1; [|done].
    injection Hc as <-. destruct (Hm l c1 Hc1) as [Hne Hw].
    destruct (decide (l0 = l)); [|done]. simpl. split; [set_solver|].
    intros h Hin. apply Hw.
    apply elem_of_union in Hin as [Hin|Hin]; [done|].
    apply elem_of_singleton in Hin. discriminate.
  - destruct (heap (mem m) !! l0) as [c0|] eqn:Hl; [|done].
    destruct (decide _); [|done]. injection He as <-. simpl in *.
    rewrite release_lookup in Hc.
    destruct (heap (mem m) !! l) as [c1|] eqn:Hc1; [|done].
    destruct (Hm l c1 Hc1) as [Hne Hw].
    destruct (decide (l0 = l)); [|by injection Hc as <-].
    destruct (decide (owners c1 ∖ _ = ∅)); [done|]. injection Hc as <-. simpl.
    split; [done|]. intros h Hin. apply Hw.
    by apply elem_of_difference in Hin as [Hin _].
  - injection He as <-. simpl in *. by apply Hm.
  - destruct (wrappers m !! h0) eqn:Hh0; [done|].
    destruct (eval_site (vars m) s) as [sv|]; [|done].
    destruct (MakeCallback sv) as [cb0|] eqn:Hmk; [|done].
    destruct (alive _ _) eqn:Hal; [|done]. injection He as <-. simpl in *.
    destruct (receiver cb0) as [r|] eqn:Hr.
    + rewrite acquire_lookup in Hc.
      destruct (heap (mem m) !! l) as [c1|] eqn:Hc1; [|done].
      injection Hc as <-. destruct (Hm l c1 Hc1) as [Hne Hw].
      destruct (decide (r = l)) as [->|Hrl]; simpl.
      * split; [set_solver|]. intros h Hin.
        destruct (decide (h = h0)) as [->|Hhh].
        -- exists cb0. by rewrite lookup_insert_eq.
        -- destruct (Hw h) as (cb & Hcb & Hrc).
           { apply elem_of_union in Hin as [Hin|Hin]; [done|].
             apply elem_of_singleton in Hin. congruence. }
           exists cb. by rewrite lookup_insert_ne.
      * split; [done|]. intros h Hin. destruct (Hw h Hin) as (cb & Hcb & Hrc).
        exists cb. rewrite lookup_insert_ne; [done|congruence].
    + destruct (Hm l c Hc) as [Hne Hw]. split; [done|].
      intros h Hin. destruct (Hw h Hin) as (cb & Hcb & Hrc).
      exists cb. rewrite lookup_insert_ne; [done|congruence].
  - destruct (wrappers m !! h0) as [cb0|]; [|done].
    destruct (call cb0 (mem m)) as [[st|]|] eqn:Hcall; try done.
    injection He as <-. simpl in *.
    pose proof (call_owners _ _ _ l Hcall) as Eo. rewrite Hc in Eo. simpl in Eo.
    destruct (heap (mem m) !! l) as [c1|] eqn:Hc1; [|done]. injection Eo as Eo.
    destruct (Hm l c1 Hc1) as [Hne Hw]. rewrite Eo. split; [done|]. exact Hw.
  - destruct (wrappers m !! h0) as [cb0|] eqn:Hh0; [|done].
    injection He as <-. simpl in *.
    destruct (receiver cb0) as [r|] eqn:Hr.
    + rewrite release_lookup in Hc.
      destruct (heap (mem m) !! l) as [c1|] eqn:Hc1; [|done].
      destruct (Hm l c1 Hc1) as [Hne Hw].
      destruct (decide (r = l)) as [->|Hrl].
      * destruct (decide (owners c1 ∖ _ = ∅)); [done|]. injection Hc as <-. simpl.
        split; [done|]. intros h Hin.
        apply elem_of_difference in Hin as [Hin Hnot].
        destruct (Hw h Hin) as (cb & Hcb & Hrc).
        exists cb. rewrite lookup_delete_ne; [done|].
        intros ->. apply Hnot. by apply elem_of_singleton.
      * injection Hc as <-. split; [done|]. intros h Hin.
        destruct (Hw h Hin) as (cb & Hcb & Hrc).
        exists cb. rewrite lookup_delete_ne; [done|]. congruence.
    + destruct (Hm l c Hc) as [Hne Hw]. split; [done|].
      intros h Hin. destruct (Hw h Hin) as (cb & Hcb & Hrc).
      exists cb. rewrite lookup_delete_ne; [done|]. congruence.
Qed.

Lemma owners_accounted_run tr m m' :
  owners_accounted m -> run tr m = Some m' -> owners_accounted m'.
Proof.
  revert m. induction tr as [|ev tr IH]; intros m Hm; simpl.
  - by intros [= <-].
  - destruct (exec ev m) as [m1|] eqn:He; [|done].
    apply IH. by eapply owners_accounted_exec.
Qed.

Lemma release_acquire l o hp c :
  hp !! l = Some c -> o ∉ owners c -> owners c <> ∅ ->
  release l o (acquire l o hp) = hp.
Proof.
  intros Hc Ho Hne. unfold release.
  rewrite acquire_lookup, Hc. simpl.
  destruct (decide (l = l)); [|done]. simpl.
  assert ((owners c ∪ {[o]}) ∖ {[o]} = owners c) as ->.
  { apply set_eq. intros x.
    rewrite elem_of_difference, elem_of_union, elem_of_singleton.
    split; [by intros [[Hx|Hx] Hxo]|].
    intros Hx. split; [by left|]. by intros ->. }
  destruct (decide (owners c = ∅)); [done|].
  unfold acquire. rewrite Hc, insert_insert_eq.
  apply insert_id. by destruct c.
Qed.

End Ownership_more.

Section Extras_dynamic.
Context {World Class : Type}.
Implicit Types (st : store World Class) (cb : Callback World Class).
Implicit Types (m : machine World Class) (hp : gmap nat (cell Class)).

(** X10: in a running program, making a bound-method handle adds
    exactly one to the use count of its receiver and leaves the object as
    it is; and making a handle of any kind and destroying it again gives
    back the program state from before. *)
Theorem X10_make_then_destroy_restores tr (w : World) m h
    (s : call_site World Class expr) m1 :
  run tr (initial w) = Some m -> exec (Ev_make h s) m = Some m1 ->
  exec (Ev_destroy h) m1 = Some m /\
  exists cb, wrappers m1 !! h = Some cb /\
    forall l, receiver cb = Some l ->
      exists c c1, heap (mem m) !! l = Some c /\ heap (mem m1) !! l = Some c1 /\
                   object c1 = object c /\ use_count c1 = S (use_count c).
Proof.
  intros Hrun He.
  assert (owners_accounted m) as Hm
    by (eapply owners_accounted_run; [apply owners_accounted_initial|done]).
  simpl in He.
  destruct (wrappers m !! h) eqn:Hh; [done|].
  destruct (eval_site (vars m) s) as [sv|]; [|done].
  destruct (MakeCallback sv) as [cb|]; [|done].
  destruct (alive _ _) eqn:Hal; [|done]. injection He as <-.
  assert (forall l c, heap (mem m) !! l = Some c -> Owner_wrapper h ∉ owners c) as Hfresh.
  { intros l c Hc Hin. destruct (Hm l c Hc) as [_ Hw].
    destruct (Hw h Hin) as (cb' & Hcb' & _). congruence. }
  split.
  - simpl. rewrite lookup_insert_eq. rewrite delete_insert_eq, delete_id by done.
    destruct m as [[g hp] ws vs]; simpl in *.
    destruct (receiver cb) as [l|]; [|done]. simpl in Hal.
    apply bool_decide_eq_true in Hal as [c Hc].
    rewrite (release_acquire l (Owner_wrapper h) hp c).
    + done.
    + done.
    + by eapply Hfresh.
    + by apply (Hm l c).
  - exists cb. simpl. split; [by rewrite lookup_insert_eq|].
    intros l Hl. rewrite Hl in Hal |- *. simpl in Hal.
    apply bool_decide_eq_true in Hal as [c Hc].
    exists c. eexists. split; [done|]. rewrite acquire_lookup, Hc. simpl.
    rewrite decide_True by done. split; [done|]. split; [done|].
    unfold use_count; simpl.
    rewrite size_union by (apply disjoint_singleton_r; by eapply Hfresh).
    rewrite size_singleton. lia.
Qed.



(** X12: in a running program, destroying a bound-method handle destroys
    its receiver exactly when the wrapper was the only owner left;
    otherwise the object stays as it is, with a use count one less and
    the wrapper no longer among its owners. *)
Theorem X12_destroy_releases_receiver tr (w : World) m h cb l c :
  run tr (initial w) = Some m -> wrappers m !! h = Some cb ->
  receiver cb = Some l -> heap (mem m) !! l = Some c ->
  exists m',
    exec (Ev_destroy h) m = Some m' /\ wrappers m' !! h = None /\
    (owners c = {[Owner_wrapper h]} -> heap (mem m') !! l = None) /\
    (owners c <> {[Owner_wrapper h]} ->
     exists c', heap (mem m') !! l = Some c' /\ object c' = object c /\
                S (use_count c') = use_count c /\ Owner_wrapper h ∉ owners c').
Proof.
  intros Hrun Hw Hl Hc.
  assert (consistent m) as Hm by (eapply consistent_run; [apply consistent_initial|done]).
  destruct (Hm h cb Hw) as [_ Hal]. destruct (Hal l Hl) as (c0 & Hc0 & Ho).
  assert (c0 = c) as -> by congruence.
  eexists. simpl. rewrite Hw, Hl. split; [done|]. simpl.
  split; [by rewrite lookup_delete_eq|].
  rewrite release_lookup, Hc, decide_True by done. split.
  - intros E. rewrite decide_True; [done|]. rewrite E. apply difference_diag_L.
  - intros Hne. rewrite decide_False.
    + eexists. split; [done|]. simpl. split; [done|]. split.
      * unfold use_count; simpl.
        rewrite size_difference by (by apply singleton_subseteq_l).
        rewrite size_singleton.
        assert (size (owners c) <> 0); [|lia].
        intros E. apply size_empty_iff in E. by rewrite E in Ho.
      * rewrite elem_of_difference, elem_of_singleton. by intros [_ ?].
    + intros E. apply Hne. apply set_eq. intros x. rewrite elem_of_singleton.
      split.
      * intros Hx. destruct (decide (x = Owner_wrapper h)) as [|Hxo]; [done|].
        assert (x ∈ owners c ∖ {[Owner_wrapper h]}) as Hin
          by (rewrite elem_of_difference, elem_of_singleton; done).
        rewrite E in Hin. by apply elem_of_empty in Hin.
      * by intros ->.
Qed.

End Extras_dynamic.

(** ** The claims on the scenario *)

Import Scenario.

(** [MakeCallback(add, 2, 3)], called once, writes 5 to the shared total. *)
Example add_2_3_writes_5 :
  exists cb st,
    MakeCallback (World := Z) (Class := Z)
      (Site_function (RValue TInt) [TInt; TInt] add [V_int 2; V_int 3])
    = Well_formed cb /\
    call cb one_counter = Well_formed (Done st) /\
    globals st = 5%Z /\ heap st = heap one_counter.
Proof. eexists _, _. repeat split; reflexivity. Qed.

(** [n] calls of a handle for [Counter::increment] add [n] to the count
    of its counter. *)
Lemma counter_incremented (n : nat) (m : machine Z Z) (h : nat) (c : cell Z) :
  wrappers m !! h = Some (MemberCallbackN RVoid counter increment) ->
  heap (mem m) !! 0 = Some c ->
  exists m' c',
    run (replicate n (Ev_call h)) m = Some m' /\
    heap (mem m') !! 0 = Some c' /\
    object c' = (object c + Z.of_nat n)%Z /\
    wrappers m' = wrappers m.
Proof.
  revert m c. induction n as [|n IH]; intros m c Hw Hc.
  - exists m, c. repeat split; [done|]. simpl. lia.
  - cbn [replicate run exec]. rewrite Hw.
    unfold call; simpl. unfold invoke_member; simpl. rewrite Hc.
    destruct (IH {| mem := {| globals := globals (mem m);
                              heap := <[0 := {| object := (object c + 1)%Z;
                                                owners := owners c |}]> (heap (mem m)) |};
                    wrappers := wrappers m;
                    vars := vars m |}
                 {| object := (object c + 1)%Z; owners := owners c |})
      as (m' & c' & Hr & Hc' & Ho & Hw').
    + done.
    + simpl. by rewrite lookup_insert_eq.
    + exists m', c'. repeat split; try done. simpl in Ho. lia.
Qed.

Lemma C3_witness :
  (exists o, best_viable (World := Z) (Class := Z)
               (Site_function (RValue TInt) [TInt; TInt] add [V_int 2; V_int 3]) = [o]) /\
  MakeCallback (World := Z) (Class := Z)
    (Site_function (RValue TInt) [TInt; TInt] add [V_int 2; V_bool true])
  = Ill_formed No_matching_overload.
Proof.
  split.
  - apply (C3_resolution_is_static_and_unique
             (Site_function (RValue TInt) [TInt; TInt] add [V_int 2; V_int 3])).
    left. reflexivity.
  - apply (C3_resolution_is_static_and_unique
             (Site_function (RValue TInt) [TInt; TInt] add [V_int 2; V_bool true])).
    simpl. discriminate.
Defined.

Lemma C10_witness :
  call_body (MemberCallback RVoid [TInt] counter advance (5%Z, tt))
  = Well_formed (invoke_member advance (get counter) (5%Z, tt)) /\
  is_well_formed
    (call_body (World := Z) (Class := Z)
       (ConstMemberCallback (RValue TInt) [] read tt)) = false.
Proof.
  split.
  - apply (C10_placeholder_takes_one_argument RVoid [TInt] counter advance
             (Build_member_pointer Const RVoid [TInt] (member_body advance))).
    reflexivity.
  - apply (C10_placeholder_takes_one_argument (RValue TInt) [] counter
             (Build_member_pointer Non_const (RValue TInt) [] (member_body read))
             read tt).
    simpl. discriminate.
Defined.

(** C2: the bound-method overload does not give a handle for a member
    function of two parameters: [MakeCallback(counter, &Counter::move, 2, 3)]
    is rejected when [MemberCallback::call] is instantiated, because the
    binder forwards one placeholder only. *)
Theorem C2_two_argument_method_rejected :
  MakeCallback (World := Z) (Class := Z)
    (Site_object_member counter Non_const RVoid [TInt; TInt] move [V_int 2; V_int 3])
  = Ill_formed Wrong_number_of_arguments.
Proof. reflexivity. Qed.

(** C6: for the bound method [Counter::increment], [call()] of the
    nullary wrapper increments the counter, and [call()] of the wrapper
    with arguments, instantiated with no argument, does not compile. *)
Theorem C6_nullary_member_differs :
  call (MemberCallbackN RVoid counter increment) one_counter
  = Well_formed (invoke_member increment (Some 0) tt one_counter) /\
  (exists st, invoke_member increment (Some 0) tt one_counter = Done st /\
              object <$> heap st !! 0 = Some 11%Z) /\
  call (MemberCallback RVoid [] counter increment tt) one_counter
  = Ill_formed Placeholder_without_argument.
Proof.
  split; [reflexivity|]. split; [|reflexivity].
  eexists. split; [reflexivity|]. vm_compute. reflexivity.
Qed.

(** C8: the receiverless overload does not give a handle:
    [MakeCallback(&Counter::move, 2, 3)] selects the receiverless
    overload, whose body passes the pointer to a non-const member to a
    constructor that takes a pointer to a const member. *)
Theorem C8_receiverless_factory_rejected :
  best_viable (World := Z) (Class := Z)
    (Site_member Non_const RVoid [TInt; TInt] move [V_int 2; V_int 3])
  = [Make_const_member] /\
  MakeCallback (World := Z) (Class := Z)
    (Site_member Non_const RVoid [TInt; TInt] move [V_int 2; V_int 3])
  = Ill_formed No_matching_constructor.
Proof. split; reflexivity. Qed.

Lemma C4_witness :
  exists m m1 m2,
    run orphaned_counter (initial 0%Z) = Some m /\
    exec (Ev_call 7) m = Some m1 /\ exec (Ev_call 7) m1 = Some m2 /\
    invoke_captured (MemberCallbackN RVoid counter increment) (mem m1)
    = Done (mem m2) /\
    wrappers m2 !! 7 = Some (MemberCallbackN RVoid counter increment).
Proof.
  destruct (C4_second_call_same_arguments orphaned_counter 0%Z _ 7
              (MemberCallbackN RVoid counter increment) eq_refl eq_refl)
    as (body & m1 & m2 & _ & _ & E1 & _ & _ & _ & E2 & H2 & _ & Hw).
  - intros _. by exists 0.
  - eexists _, m1, m2. split; [reflexivity|]. done.
Defined.

Lemma C5_witness :
  exists m1 m2 cb,
    exec (Ev_make 1 add_x_y) caller = Some m1 /\
    run [Ev_assign "x" (V_int 40)] m1 = Some m2 /\
    wrappers m2 !! 1 = Some cb /\
    captured_arguments cb = [V_int 2; V_int 3].
Proof.
  destruct (C5_arguments_are_a_snapshot caller 1 add_x_y _ [("x", V_int 40)] eq_refl)
    as (m2 & cb & Hr & _ & Hw & Ha & _).
  eexists _, m2, cb. split; [reflexivity|]. split; [done|]. split; [done|].
  assert (eval_list (vars caller) (site_args add_x_y) = Some [V_int 2; V_int 3])
    as E by reflexivity.
  congruence.
Defined.



Lemma C9_witness :
  exists m c,
    run orphaned_counter (initial 0%Z) = Some m /\
    heap (mem m) !! 0 = Some c /\ 1 <= use_count c.
Proof.
  destruct (C9_handle_keeps_receiver_alive orphaned_counter 0%Z _ 7
              (MemberCallbackN RVoid counter increment) 0 eq_refl eq_refl eq_refl)
    as (c & Hc & _ & Hu & _).
  eexists _, c. split; [reflexivity|]. done.
Defined.

(** ** The further properties on the scenario *)

Lemma X1_witness :
  best_viable (World := Z) (Class := Z) (Site_function RVoid [] tick [])
  = [Make_functionN] /\
  best_viable (Site_object_member counter Non_const RVoid [TInt] advance [V_int 5])
  = [Make_member].
Proof.
  split.
  - apply (X1_nullary_overload_preferred
             (Site_function RVoid [] tick []) (FunctionCallbackN RVoid [] tick)).
    reflexivity.
  - apply (X1_nullary_overload_preferred
             (Site_object_member counter Non_const RVoid [TInt] advance [V_int 5])
             (MemberCallback RVoid [TInt] counter advance (5%Z, tt))).
    reflexivity.
Defined.

Lemma X3_witness :
  MakeCallback (World := Z) (Class := Z)
    (Site_member Non_const RVoid [TInt] advance [V_int 5])
  = Ill_formed No_matching_constructor /\
  MakeCallback (World := Z) (Class := Z)
    (Site_member Non_const RVoid [TInt] advance [V_bool true])
  = Ill_formed No_matching_overload.
Proof.
  split.
  - apply (X3_receiverless_never_yields_handle Non_const RVoid [TInt] advance [V_int 5]);
      reflexivity.
  - apply (X3_receiverless_never_yields_handle Non_const RVoid [TInt] advance
             [V_bool true]).
    right. simpl. discriminate.
Defined.



Lemma X6_witness :
  exists cb,
    MakeCallback (Site_object_member {| get := None |} Non_const RVoid [] increment [])
    = Well_formed cb /\
    call cb one_counter = Well_formed Undefined.
Proof.
  destruct (X6_empty_pointer_accepted_call_undefined RVoid [] increment tt)
    as (cb & Hmk & Hcall).
  - simpl. lia.
  - exists cb. split; [exact Hmk|apply Hcall].
Defined.

Lemma X7_witness :
  exists cbf cbg : Callback Z Z,
    MakeCallback (Site_function (RValue TInt) [TInt; TInt] add [V_int 2; V_int 3])
    = Well_formed cbf /\
    MakeCallback
      (Site_function RVoid [TInt; TInt]
         (fun a _ => (tt, (fst a + fst (snd a))%Z)) [V_int 2; V_int 3])
    = Well_formed cbg /\
    call cbf one_counter = call cbg one_counter.
Proof.
  destruct (X7_return_value_dropped (World := Z) (Class := Z)
              (RValue TInt) RVoid [TInt; TInt] add
              (fun a _ => (tt, (fst a + fst (snd a))%Z)) (2%Z, (3%Z, tt)))
    as (cbf & cbg & Hf & Hg & Hc).
  - intros w. reflexivity.
  - exists cbf, cbg. split; [exact Hf|]. split; [exact Hg|apply Hc].
Defined.

Lemma X8_witness :
  receiver (MemberCallback RVoid [TInt] counter advance (5%Z, tt)) = Some 0 /\
  captured_arguments (MemberCallback RVoid [TInt] counter advance (5%Z, tt))
  = [V_int 5].
Proof.
  destruct (X8_handle_holds_what_was_given
              (Site_object_member counter Non_const RVoid [TInt] advance [V_int 5])
              (MemberCallback RVoid [TInt] counter advance (5%Z, tt)) eq_refl)
    as (Ha & _ & Hr).
  split; [exact Hr|exact Ha].
Defined.

Lemma X10_witness :
  exists m m1 : machine Z Z,
    run [Ev_make_shared 0 10%Z 0] (initial 0%Z) = Some m /\
    exec (Ev_make 7 (Site_object_member counter Non_const RVoid [] increment [])) m
    = Some m1 /\
    exec (Ev_destroy 7) m1 = Some m.
Proof.
  eexists _, _. split; [reflexivity|]. split; [reflexivity|].
  eapply (X10_make_then_destroy_restores [Ev_make_shared 0 10%Z 0] 0%Z _ 7
            (Site_object_member counter Non_const RVoid [] increment []));
    reflexivity.
Defined.


Lemma X12_witness :
  exists m m' : machine Z Z,
    run orphaned_counter (initial 0%Z) = Some m /\
    exec (Ev_destroy 7) m = Some m' /\
    heap (mem m') !! 0 = None.
Proof.
  destruct (X12_destroy_releases_receiver orphaned_counter 0%Z _ 7
              (MemberCallbackN RVoid counter increment) 0 _
              eq_refl eq_refl eq_refl eq_refl)
    as (m' & He & _ & Hlast & _).
  eexists _, m'. split; [reflexivity|]. split; [exact He|].
  apply Hlast. vm_compute. reflexivity.
Defined.
